(** * tiny-mixtape: the Spotify router (search, getRecommendations,
      getPlaylists, createPlaylist)

    A shallow embedding of the four resolvers of [spotifyRouter] and of the
    helpers they call, followed by the properties of the request pipeline.

    Conventions of the embedding.
    - A JavaScript string is the list of its UTF-16 code units.
    - A JavaScript number is a binary64 float ([PrimFloat.float]) wherever the
      code computes with fractions (audio features, target parameters); list
      lengths, batch offsets, HTTP statuses and the page limit of
      [getPlaylists] are integers ([Z]).
    - [await fetch(url, init).then(res => res.json())] is one step of the
      [Async] monad: it appends the exchange to the world's network trace
      and yields the parsed body.  The upstream service is a variable of the
      development, so every theorem holds for every behaviour of it.  A body
      is either error-shaped ([{ error: { status, message } }]) or has the
      shape the endpoint documents.
    - The resolvers are embedded; tRPC's input parsing is given by the
      [*_input] predicates.  The output schema of [getPlaylists] is part
      of the procedure: its resolver is [getPlaylists_resolve].  The output
      schema of [createPlaylist] (two strings) holds of every value of its
      type, and that of [search] and [getRecommendations]
      ([PlaylistTracksSchema] of ./output-types) is not among the sources.
      An exception that leaves a resolver is kept as it was thrown. *)

From Stdlib Require Import String Ascii DecimalString.
From Stdlib Require Import ZArith NArith List Bool Lia.
From Stdlib Require Import PrimFloat SpecFloat FloatOps.
From Stdlib Require Uint63.
Import ListNotations.

Set Implicit Arguments.
Set Warnings "-inexact-float".

(* ------------------------------------------------------------------ *)
(** ** JavaScript values *)

Module JS.

(** Strings: sequences of UTF-16 code units. *)
Definition jsstring := list N.

Definition lit (s : string) : jsstring :=
  map N_of_ascii (list_ascii_of_string s).
Arguments lit : simpl never.

Definition jsstring_eq_dec (a b : jsstring) : {a = b} + {a <> b} :=
  list_eq_dec N.eq_dec a b.

Definition jsstring_eqb (a b : jsstring) : bool :=
  if jsstring_eq_dec a b then true else false.

(** ECMAScript WhiteSpace and LineTerminator code points, the characters
    [String.prototype.trim] strips.  All of them are in the basic plane. *)
Definition is_white_space (c : N) : bool :=
  ((c =? 0x9) || (c =? 0xA) || (c =? 0xB) || (c =? 0xC) || (c =? 0xD)
   || (c =? 0x20) || (c =? 0xA0) || (c =? 0x1680)
   || ((0x2000 <=? c) && (c <=? 0x200A))
   || (c =? 0x2028) || (c =? 0x2029) || (c =? 0x202F) || (c =? 0x205F)
   || (c =? 0x3000) || (c =? 0xFEFF))%N.

Fixpoint trimStart (s : jsstring) : jsstring :=
  match s with
  | [] => []
  | c :: s' => if is_white_space c then trimStart s' else s
  end.

Definition trimEnd (s : jsstring) : jsstring := rev (trimStart (rev s)).

Definition trim (s : jsstring) : jsstring := trimEnd (trimStart s).

(** Truthiness of a string: the empty string is the only falsy one. *)
Definition truthy (s : jsstring) : bool :=
  match s with [] => false | _ => true end.

(** [Array.prototype.join] on an array of strings. *)
Fixpoint join (sep : jsstring) (l : list jsstring) : jsstring :=
  match l with
  | [] => []
  | [s] => s
  | s :: l' => s ++ sep ++ join sep l'
  end.

(** [`${n}`] for an integer [n]: its decimal digits. *)
Definition show_int (n : Z) : jsstring :=
  lit (NilZero.string_of_int (Z.to_int n)).

(** Values that may be [undefined] or [null] (zod's [nullish]). *)
Inductive nullish (A : Type) : Type :=
| Undefined : nullish A
| Null : nullish A
| Val : A -> nullish A.
Arguments Undefined {A}.
Arguments Null {A}.

(** [v ?? d] *)
Definition coalesce {A} (v : nullish A) (d : A) : A :=
  match v with Val a => a | _ => d end.

(** [Array.prototype.slice(start, end)]: negative indices count from the
    end, and both are clamped to the array. *)
Definition rel_index (len k : Z) : Z :=
  if (k <? 0)%Z then Z.max (len + k) 0 else Z.min k len.

Definition slice {A} (l : list A) (s e : Z) : list A :=
  let len := Z.of_nat (length l) in
  let from := rel_index len s in
  let to := rel_index len e in
  firstn (Z.to_nat (to - from)) (skipn (Z.to_nat from) l).

(** [Array.prototype.at(-1)] *)
Definition at_last {A} (l : list A) : option A :=
  match l with [] => None | _ => nth_error l (length l - 1) end.

(** [Math.floor] on a binary64 number: NaN, the infinities and the zeros
    are returned unchanged; a finite [±m·2^e] with [e < 0] is cut at the
    binary point (the quotient is below [2^53], so it converts exactly). *)
Definition Math_floor (x : float) : float :=
  match Prim2SF x with
  | S754_finite s m e =>
      if (0 <=? e)%Z then x
      else
        let q := Z.shiftr (Zpos m) (- e) in
        let exact := (Z.shiftl q (- e) =? Zpos m)%Z in
        if s
        then PrimFloat.opp
               (PrimFloat.of_uint63 (Uint63.of_Z (if exact then q else q + 1)))
        else PrimFloat.of_uint63 (Uint63.of_Z q)
  | _ => x
  end.

(** A list length as a number (exact below [2^53]). *)
Definition number_of_nat (n : nat) : float :=
  PrimFloat.of_uint63 (Uint63.of_Z (Z.of_nat n)).

End JS.
Import JS.

(* ------------------------------------------------------------------ *)
(** ** Data model *)

Record AudioFeatures := {
  danceability : float;
  energy : float;
  tempo : float;
  valence : float
}.

(** Modelled from the spec: the constant [INITIAL_AUDIO_FEATURES] of
    components/new-playlist/new-playlist-state, which is not among the
    sources; the spec calls it the all-zero sentinel for "audio features
    unavailable". *)
Definition INITIAL_AUDIO_FEATURES : AudioFeatures :=
  {| danceability := 0; energy := 0; tempo := 0; valence := 0 |}.

Record Image := {
  img_url : jsstring;
  img_height : float;
  img_width : float
}.

(** Upstream track object, as far as the resolvers read it. *)
Record RawAlbum := { album_name : jsstring; album_images : list Image }.

Record RawTrack := {
  raw_id : jsstring;
  raw_uri : jsstring;
  raw_name : jsstring;
  raw_artists : list jsstring;          (* artists[k].name *)
  raw_preview_url : option jsstring;    (* null when there is no preview *)
  raw_album : RawAlbum;
  raw_duration_ms : float
}.

(** Upstream playlist object: [tracks.items[k].track.id] is kept as the
    list of track ids. *)
Record RawPlaylist := {
  pl_id : jsstring;
  pl_name : jsstring;
  pl_description : jsstring;
  pl_images : list Image;
  pl_track_ids : list jsstring
}.

(** The router's track: the audio features are the four fields spread into
    the object by [getRecommendations] and absent in [search]. *)
Record PlaylistTrack := {
  track_id : jsstring;                  (* [id] *)
  uri : jsstring;
  name : jsstring;
  artists : list jsstring;
  previewUrl : option jsstring;
  albumName : jsstring;
  image : option Image;                 (* [images.at(-1)] *)
  duration : float;
  features : option AudioFeatures
}.

Record Playlist := {
  p_id : jsstring;
  p_name : jsstring;
  p_description : jsstring;
  p_image : option Image;               (* [images[1]] *)
  p_uri : jsstring;
  p_audioFeatures : AudioFeatures
}.

(** A row of the local [playlist] table. *)
Record PlaylistRow := {
  row_id : jsstring;
  spotifyId : jsstring;
  createdBy : jsstring;
  createdAt : Z
}.

(* ------------------------------------------------------------------ *)
(** ** Requests, responses and errors *)

Inductive Method := GET | POST.

(** [`${x}`] of a number inside a query string is kept as the number: its
    decimal rendering is not part of the model. *)
Inductive ParamValue :=
| PStr (s : jsstring)
| PNum (x : float).

(** The object handed to [JSON.stringify] as a request body. *)
Inductive JsonBody :=
| NewPlaylistBody (name : jsstring) (public : bool) (description : jsstring)
| AddTracksBody (position : Z) (uris : list jsstring).

(** One [fetch(url, init)]: the URL up to [?], the pairs given to
    [URLSearchParams], and [init]. *)
Record Request := {
  url : jsstring;
  query : list (jsstring * ParamValue);
  method : Method;
  headers : list (jsstring * jsstring);
  body : option JsonBody
}.

Record ApiError := { status : Z; message : jsstring }.

Record RawAudioFeatures := {
  af_danceability : float;
  af_energy : float;
  af_tempo : float;
  af_valence : float
}.

Inductive Endpoint :=
| Search | Recommendations | AudioFeaturesLookup
| GetPlaylist | NewPlaylist | AddTracks.

(** What a body that is not error-shaped holds, per endpoint. *)
Definition Payload (ep : Endpoint) : Type :=
  match ep with
  | Search => list RawTrack                          (* [tracks.items] *)
  | Recommendations => list RawTrack                 (* [tracks] *)
  | AudioFeaturesLookup => list (option RawAudioFeatures)
                                                     (* [audio_features], entries may be null *)
  | GetPlaylist => RawPlaylist
  | NewPlaylist => RawPlaylist
  | AddTracks => jsstring                            (* [snapshot_id] *)
  end.

Definition Json (ep : Endpoint) : Type := (ApiError + Payload ep)%type.

(** [json.error], [undefined] on a body that is not error-shaped. *)
Definition error {ep} (json : Json ep) : option ApiError :=
  match json with inl e => Some e | inr _ => None end.

Record Exchange := {
  ex_endpoint : Endpoint;
  ex_request : Request;
  ex_json : Json ex_endpoint
}.

Definition ex_error (x : Exchange) : option ApiError := error (ex_json x).

Inductive TRPC_ERROR_CODE_KEY :=
| PARSE_ERROR | BAD_REQUEST | INTERNAL_SERVER_ERROR | UNAUTHORIZED
| FORBIDDEN | NOT_FOUND | METHOD_NOT_SUPPORTED | TIMEOUT | CONFLICT
| PRECONDITION_FAILED | PAYLOAD_TOO_LARGE | CLIENT_CLOSED_REQUEST.

(** The error classes of the Prisma client. *)
Inductive PrismaError :=
| PrismaClientKnownRequestError (code : jsstring)
| PrismaClientUnknownRequestError
| PrismaClientRustPanicError
| PrismaClientInitializationError
| PrismaClientValidationError.

Inductive Cause :=
| AggregateError (errors : list jsstring)      (* the messages of its [Error]s *)
| PrismaCause (e : PrismaError)
| ZodError.                                    (* a value that fails a schema *)

Inductive Exn :=
| TRPCError (code : TRPC_ERROR_CODE_KEY) (message : jsstring)
            (cause : option Cause)
| TypeError                                     (* a property read on undefined or null *)
| PrismaExn (e : PrismaError).

(** [ctx.session] *)
Record Ctx := { accessToken : jsstring; user_id : jsstring }.

(* ------------------------------------------------------------------ *)
(** ** The world and the [Async] monad *)

(** Arguments of the queries sent to the local store. *)
Inductive SortOrder := asc | desc.

Record FindManyArgs := {
  take : Z;
  fm_cursor : option jsstring;        (* [cursor: { id }] *)
  orderBy_createdAt : SortOrder;      (* [orderBy: { createdAt }] *)
  fm_where : option jsstring          (* [where: { createdBy: { equals } }] *)
}.

Record CreateData := { data_spotifyId : jsstring; data_createdBy : jsstring }.

Inductive DbQuery :=
| Count (where_ : option jsstring)
| FindMany (args : FindManyArgs)
| Create (data : CreateData).

Record World := {
  net : list Exchange;                (* the exchanges with upstream, oldest first *)
  db : list PlaylistRow;              (* the [playlist] table *)
  db_log : list DbQuery               (* the queries sent to the store *)
}.

Inductive Outcome (A : Type) : Type :=
| Ok (a : A)
| Throw (e : Exn).
Arguments Throw {A} e.

Definition Async (A : Type) : Type := World -> Outcome A * World.

Definition ret {A} (a : A) : Async A := fun w => (Ok a, w).

Definition throw {A} (e : Exn) : Async A := fun w => (Throw e, w).

Definition bind {A B} (c : Async A) (k : A -> Async B) : Async B :=
  fun w =>
    match c w with
    | (Ok a, w') => k a w'
    | (Throw e, w') => (Throw e, w')
    end.

(** [try { c } catch (e) { h e }] *)
Definition try_catch {A} (c : Async A) (h : Exn -> Async A) : Async A :=
  fun w =>
    match c w with
    | (Ok a, w') => (Ok a, w')
    | (Throw e, w') => h e w'
    end.

(** A synchronous computation that may throw, run inside an async one. *)
Definition lift {A} (o : Outcome A) : Async A := fun w => (o, w).

Declare Scope async_scope.
Delimit Scope async_scope with async.
Notation "x <- c ;; k" := (bind c (fun x => k))
  (at level 61, c at next level, right associativity) : async_scope.
Notation "c ;;; k" := (bind c (fun _ => k))
  (at level 61, right associativity) : async_scope.
Open Scope async_scope.

(** [array.map((x, i) => f(x, i))] for a callback that may throw: the first
    exception ends the traversal. *)
Fixpoint mapi_from {A B} (f : A -> nat -> Outcome B) (i : nat) (l : list A)
  : Outcome (list B) :=
  match l with
  | [] => Ok []
  | x :: l' =>
      match f x i with
      | Throw e => Throw e
      | Ok y =>
          match mapi_from f (S i) l' with
          | Throw e => Throw e
          | Ok ys => Ok (y :: ys)
          end
      end
  end.

Definition mapi {A B} (f : A -> nat -> Outcome B) (l : list A) : Outcome (list B) :=
  mapi_from f 0 l.

(** [for (const x of l) r.push(await f(x))] *)
Fixpoint for_each {A B} (f : A -> Async B) (l : list A) : Async (list B) :=
  match l with
  | [] => ret []
  | x :: l' => y <- f x ;; ys <- for_each f l' ;; ret (y :: ys)
  end.

(* ------------------------------------------------------------------ *)
(** ** Helpers of utils/ *)

(** Modelled from the spec: [range(start, end, step)] of utils/array, which
    is not among the sources.  The call sites pass the last index
    ([length - 1]) as [end] and the spec asks that the batches cover the
    whole input, so [end] is inclusive:
    [for (i = start; i <= end; i += step) push(i)].  The loop is run with
    [end - start + 1] units of fuel, which it never exhausts for
    [step >= 1]. *)
Fixpoint range_loop (fuel : nat) (i end_ step : Z) : list Z :=
  match fuel with
  | O => []
  | S fuel' =>
      if (i <=? end_)%Z then i :: range_loop fuel' (i + step) end_ step else []
  end.

Definition range (start end_ step : Z) : list Z :=
  range_loop (Z.to_nat (end_ - start + 1)) start end_ step.

(** The sum of a list of numbers, as [reduce((a, x) => a + x, 0)]. *)
Definition sum (xs : list float) : float :=
  fold_left PrimFloat.add xs 0%float.

(** The arithmetic mean of a list of numbers. *)
Definition mean (xs : list float) : float :=
  PrimFloat.div (sum xs) (number_of_nat (length xs)).

Definition add_features (a b : AudioFeatures) : AudioFeatures :=
  {| danceability := PrimFloat.add (danceability a) (danceability b);
     energy := PrimFloat.add (energy a) (energy b);
     tempo := PrimFloat.add (tempo a) (tempo b);
     valence := PrimFloat.add (valence a) (valence b) |}.

(** Modelled from the spec: [calculateAverageAudioFeatures] of
    utils/audio-features, which is not among the sources.  The spec: it
    "returns the element-wise arithmetic mean", and for the empty list "a
    defined zero/unknown record", the sentinel [INITIAL_AUDIO_FEATURES].
    The records are summed field by field from zero and each total is
    divided by the number of records. *)
Definition calculateAverageAudioFeatures (l : list AudioFeatures) : AudioFeatures :=
  match l with
  | [] => INITIAL_AUDIO_FEATURES
  | _ =>
      let total := fold_left add_features l INITIAL_AUDIO_FEATURES in
      let n := number_of_nat (length l) in
      {| danceability := PrimFloat.div (danceability total) n;
         energy := PrimFloat.div (energy total) n;
         tempo := PrimFloat.div (tempo total) n;
         valence := PrimFloat.div (valence total) n |}
  end.

(* ------------------------------------------------------------------ *)
(** ** Inputs of the procedures (the zod schemas) *)

Definition in_range (lo hi x : float) : bool :=
  PrimFloat.leb lo x && PrimFloat.leb x hi.

Definition optional_in_range (lo hi : float) (x : option float) : bool :=
  match x with None => true | Some v => in_range lo hi v end.

Record SearchInput := { q : jsstring; s_offset : float; s_limit : float }.

Definition search_input (i : SearchInput) : bool :=
  in_range 0 1000 (s_offset i) && in_range 0 50 (s_limit i).

Record RecommendationsInput := {
  trackSeeds : list jsstring;
  r_limit : float;
  r_danceability : option float;
  r_tempo : option float;
  r_valence : option float;
  r_energy : option float
}.

Definition getRecommendations_input (i : RecommendationsInput) : bool :=
  (length (trackSeeds i) <=? 5)%nat
  && in_range 1 100 (r_limit i)
  && optional_in_range 0 100 (r_danceability i)
  && negb (match r_tempo i with Some t => PrimFloat.is_nan t | None => false end)
  && optional_in_range 0 100 (r_valence i)
  && optional_in_range 0 100 (r_energy i).

(** [limit] is an integer here: [z.number()] also lets fractions through,
    which the store's [take] refuses. *)
Record PlaylistsInput := {
  limit : nullish Z;
  cursor : nullish jsstring;
  isCreatorOnly : bool
}.

Definition getPlaylists_input (i : PlaylistsInput) : bool :=
  match limit i with
  | Val l => (1 <=? l)%Z && (l <=? 100)%Z
  | _ => true
  end.

Record PlaylistsOutput := {
  items : list Playlist;
  total : Z;
  nextCursor : option jsstring
}.

(** The output schema of [getPlaylists].  [z.number()] accepts every number
    but NaN; the strings, [total] and the optional [nextCursor] hold by
    their types; [image] is a required object, so an item without image
    fails the schema. *)
Definition is_number (x : float) : bool := negb (PrimFloat.is_nan x).

Definition image_output (i : option Image) : bool :=
  match i with
  | Some img => is_number (img_height img) && is_number (img_width img)
  | None => false
  end.

Definition audioFeatures_output (af : AudioFeatures) : bool :=
  is_number (danceability af) && is_number (energy af)
  && is_number (tempo af) && is_number (valence af).

Definition getPlaylists_output (r : PlaylistsOutput) : bool :=
  forallb (fun item => image_output (p_image item)
                       && audioFeatures_output (p_audioFeatures item))
          (items r).

Record CreatePlaylistInput := {
  uris : list jsstring;
  cp_name : jsstring;
  isPublic : bool;
  cp_description : jsstring
}.

Definition createPlaylist_input (i : CreatePlaylistInput) : bool :=
  (1 <=? length (uris i))%nat.

Record CreatePlaylistOutput := { out_name : jsstring; out_url : jsstring }.

(* ------------------------------------------------------------------ *)
(** ** The router *)

Definition API_BASE_URL : jsstring := lit "https://api.spotify.com/v1".
Arguments API_BASE_URL : simpl never.

Section Router.

(** [TRPC_ERROR_CODE_KEY_BY_HTTP_STATUS.get] of ./trpc-utils, a table
    that is not among the sources. *)
Variable TRPC_ERROR_CODE_KEY_BY_HTTP_STATUS : Z -> option TRPC_ERROR_CODE_KEY.

(** The upstream service: the body it answers a request with, given the
    requests it has received so far. *)
Variable upstream : forall ep : Endpoint, list Request -> Request -> Json ep.

(** The local store behind [ctx.prisma.playlist]: the answers of [count]
    and [findMany] on a table, and of [create], which either throws or
    yields the stored row. *)
Variable store_count : list PlaylistRow -> option jsstring -> Z.
Variable store_findMany : list PlaylistRow -> FindManyArgs -> list PlaylistRow.
Variable store_create : list PlaylistRow -> CreateData -> PrismaError + PlaylistRow.

(** [await fetch(url, init).then((res) => res.json())] *)
Definition fetch (ep : Endpoint) (req : Request) : Async (Json ep) :=
  fun w =>
    let json := upstream ep (map ex_request (net w)) req in
    (Ok json,
     {| net := net w ++ [{| ex_endpoint := ep; ex_request := req; ex_json := json |}];
        db := db w;
        db_log := db_log w |}).

(** Modelled from the spec: [sequentialFetch] of utils/fetch, which is not
    among the sources.  The spec (4.1): the requests are executed
    "sequentially, not concurrently, awaiting each response before issuing
    the next", and the result is the list of parsed bodies, "one per input
    descriptor, same order as input", error-shaped bodies included,
    "without short-circuiting". *)
Definition sequentialFetch (ep : Endpoint) (configs : list Request)
  : Async (list (Json ep)) :=
  for_each (fetch ep) configs.

Definition prisma_count (where_ : option jsstring) : Async Z :=
  fun w =>
    (Ok (store_count (db w) where_),
     {| net := net w; db := db w; db_log := db_log w ++ [Count where_] |}).

Definition prisma_findMany (args : FindManyArgs) : Async (list PlaylistRow) :=
  fun w =>
    (Ok (store_findMany (db w) args),
     {| net := net w; db := db w; db_log := db_log w ++ [FindMany args] |}).

Definition prisma_create (data : CreateData) : Async PlaylistRow :=
  fun w =>
    match store_create (db w) data with
    | inl e =>
        (Throw (PrismaExn e),
         {| net := net w; db := db w; db_log := db_log w ++ [Create data] |})
    | inr row =>
        (Ok row,
         {| net := net w; db := db w ++ [row]; db_log := db_log w ++ [Create data] |})
    end.

Definition bearer (ctx : Ctx) : jsstring * jsstring :=
  (lit "Authorization", lit "Bearer " ++ accessToken ctx).

Definition content_type_json : jsstring * jsstring :=
  (lit "Content-Type", lit "application/json").

(** The error thrown on an error-shaped body. *)
Definition upstream_error (e : ApiError) : Exn :=
  TRPCError
    (match TRPC_ERROR_CODE_KEY_BY_HTTP_STATUS (status e) with
     | Some c => c
     | None => INTERNAL_SERVER_ERROR
     end)
    (show_int (status e) ++ lit "! " ++ message e)
    None.

(** The fields every returned track has. *)
Definition track_of (item : RawTrack) (af : option AudioFeatures) : PlaylistTrack :=
  {| track_id := raw_id item;
     uri := raw_uri item;
     name := raw_name item;
     artists := raw_artists item;
     previewUrl := raw_preview_url item;
     albumName := album_name (raw_album item);
     image := at_last (album_images (raw_album item));
     duration := raw_duration_ms item;
     features := af |}.

(** *** search *)
Definition search (ctx : Ctx) (input : SearchInput) : Async (list PlaylistTrack) :=
  let req :=
    {| url := API_BASE_URL ++ lit "/search";
       query := [ (lit "q", PStr (q input));
                  (lit "type", PStr (lit "track"));
                  (lit "offset", PNum (s_offset input));
                  (lit "limit", PNum (s_limit input)) ];
       method := GET;
       headers := [bearer ctx];
       body := None |} in
  if negb (truthy (trim (q input))) then ret []
  else
    res <- fetch Search req ;;
    match res with
    | inl e => throw (upstream_error e)
    | inr tracks_items =>
        if (length tracks_items =? 0)%nat
        then throw (TRPCError NOT_FOUND (lit "No tracks found") None)
        else ret (map (fun item => track_of item None) tracks_items)
    end.

(** *** getRecommendations *)

(** [if (x !== undefined) searchParams.append(key, `${f x}`)] *)
Definition append_if_defined (key : string) (f : float -> float)
           (x : option float) : list (jsstring * ParamValue) :=
  match x with
  | Some v => [(lit key, PNum (f v))]
  | None => []
  end.

Definition recommendation_params (input : RecommendationsInput)
  : list (jsstring * ParamValue) :=
  [ (lit "seed_tracks", PStr (join (lit ",") (trackSeeds input)));
    (lit "limit", PNum (r_limit input)) ]
    ++ append_if_defined "target_danceability"
         (fun d => PrimFloat.div d 100) (r_danceability input)
    ++ append_if_defined "target_tempo" (fun t => t) (r_tempo input)
    ++ append_if_defined "target_valence"
         (fun v => PrimFloat.div v 100) (r_valence input)
    ++ append_if_defined "target_energy"
         (fun e => PrimFloat.div e 100) (r_energy input).

Definition audio_features_request (ctx : Ctx) (ids : list jsstring) : Request :=
  {| url := API_BASE_URL ++ lit "/audio-features";
     query := [ (lit "ids", PStr (join (lit ",") ids)) ];
     method := GET;
     headers := [bearer ctx];
     body := None |}.

(** The features of track [i] read off a successful lookup:
    [audio_features[i]] must be an object. *)
Definition scaled_features (audio_features : list (option RawAudioFeatures))
           (i : nat) : Outcome AudioFeatures :=
  match nth_error audio_features i with
  | Some (Some af) =>
      Ok {| danceability := Math_floor (PrimFloat.mul (af_danceability af) 100);
            tempo := af_tempo af;
            valence := Math_floor (PrimFloat.mul (af_valence af) 100);
            energy := Math_floor (PrimFloat.mul (af_energy af) 100) |}
  | _ => Throw TypeError
  end.

Definition recommendations_request (ctx : Ctx) (input : RecommendationsInput)
  : Request :=
  {| url := API_BASE_URL ++ lit "/recommendations";
     query := recommendation_params input;
     method := GET;
     headers := [bearer ctx];
     body := None |}.

Definition getRecommendations (ctx : Ctx) (input : RecommendationsInput)
  : Async (list PlaylistTrack) :=
  if (length (trackSeeds input) =? 0)%nat then ret []
  else
    res <- fetch Recommendations (recommendations_request ctx input) ;;
    match res with
    | inl e => throw (upstream_error e)
    | inr tracks =>
        audioFeaturesRes <-
          fetch AudioFeaturesLookup
                (audio_features_request ctx (map raw_id tracks)) ;;
        lift (mapi
                (fun track i =>
                   match audioFeaturesRes with
                   | inr audio_features =>          (* hasAudioFeatures *)
                       match scaled_features audio_features i with
                       | Ok af => Ok (track_of track (Some af))
                       | Throw e => Throw e
                       end
                   | inl _ => Ok (track_of track (Some INITIAL_AUDIO_FEATURES))
                   end)
                tracks)
    end.

(** *** getPlaylists *)

Definition MAX_ITEMS_PER_REQUEST : Z := 100.

(** [where: input.isCreatorOnly ? { createdBy: { equals: user.id } } : undefined] *)
Definition creator_filter (ctx : Ctx) (input : PlaylistsInput) : option jsstring :=
  if isCreatorOnly input then Some (user_id ctx) else None.

(** [cursor: input.cursor ? { id: input.cursor } : undefined] *)
Definition cursor_arg (input : PlaylistsInput) : option jsstring :=
  match cursor input with
  | Val c => if truthy c then Some c else None
  | _ => None
  end.

(** [Array.prototype.pop]: the last element and the array without it. *)
Definition pop {A} (l : list A) : option (A * list A) :=
  match rev l with
  | [] => None
  | x :: r => Some (x, rev r)
  end.

(** [if (items.length > limit) { nextItem = items.pop(); nextCursor = nextItem!.id }] *)
Definition split_page (limit : Z) (items : list PlaylistRow)
  : Outcome (list PlaylistRow * option jsstring) :=
  if (Z.of_nat (length items) >? limit)%Z then
    match pop items with
    | Some (nextItem, items') => Ok (items', Some (row_id nextItem))
    | None => Throw TypeError
    end
  else Ok (items, None).

Definition playlist_request (ctx : Ctx) (spotifyId : jsstring) : Request :=
  {| url := API_BASE_URL ++ lit "/playlists/" ++ spotifyId;
     query := [];
     method := GET;
     headers := [bearer ctx];
     body := None |}.

(** The audio-features requests of one playlist, a batch per
    [MAX_ITEMS_PER_REQUEST] tracks; an error-shaped playlist has no
    [tracks]. *)
Definition playlist_audio_features (ctx : Ctx) (playlist : Json GetPlaylist)
  : Async (list (Json AudioFeaturesLookup)) :=
  match playlist with
  | inl _ => throw TypeError
  | inr p =>
      let indices :=
        range 0 (Z.of_nat (length (pl_track_ids p)) - 1) MAX_ITEMS_PER_REQUEST in
      let configs :=
        map (fun index =>
               audio_features_request ctx
                 (slice (pl_track_ids p) index (index + MAX_ITEMS_PER_REQUEST)))
            indices in
      sequentialFetch AudioFeaturesLookup configs
  end.

Definition sentinel_entry : option RawAudioFeatures :=
  Some {| af_danceability := danceability INITIAL_AUDIO_FEATURES;
          af_energy := energy INITIAL_AUDIO_FEATURES;
          af_tempo := tempo INITIAL_AUDIO_FEATURES;
          af_valence := valence INITIAL_AUDIO_FEATURES |}.

(** [.map((af) => af.audio_features ?? INITIAL_AUDIO_FEATURES).flat()] *)
Definition flat_audio_features (l : list (Json AudioFeaturesLookup))
  : list (option RawAudioFeatures) :=
  flat_map (fun af =>
              match af with
              | inr audio_features => audio_features
              | inl _ => [sentinel_entry]
              end) l.

Definition percent_features (track : option RawAudioFeatures) (_ : nat)
  : Outcome AudioFeatures :=
  match track with
  | Some t =>
      Ok {| danceability := PrimFloat.mul (af_danceability t) 100;
            energy := PrimFloat.mul (af_energy t) 100;
            tempo := af_tempo t;
            valence := PrimFloat.mul (af_valence t) 100 |}
  | None => Throw TypeError
  end.

Definition average_of_playlist (audioFeaturesForPlaylist : list (Json AudioFeaturesLookup))
           (_ : nat) : Outcome AudioFeatures :=
  match mapi percent_features (flat_audio_features audioFeaturesForPlaylist) with
  | Ok l => Ok (calculateAverageAudioFeatures l)
  | Throw e => Throw e
  end.

Definition playlist_of (playlist : Json GetPlaylist) (average : AudioFeatures)
  : Outcome Playlist :=
  match playlist with
  | inl _ => Throw TypeError
  | inr p =>
      Ok {| p_id := pl_id p;
            p_name := pl_name p;
            p_description := pl_description p;
            p_image := nth_error (pl_images p) 1;
            p_uri := lit "https://open.spotify.com/playlist/" ++ pl_id p;
            p_audioFeatures := average |}
  end.

(** The resolver.  The requests that [Promise.all] leaves in flight
    together are issued here one after the other, in the order of the
    array. *)
Definition getPlaylists_resolve (ctx : Ctx) (input : PlaylistsInput)
  : Async PlaylistsOutput :=
  let limit := coalesce (limit input) 50%Z in
  total <- prisma_count (creator_filter ctx input) ;;
  items <- prisma_findMany
             {| take := limit + 1;
                fm_cursor := cursor_arg input;
                orderBy_createdAt := desc;
                fm_where := creator_filter ctx input |} ;;
  page <- lift (split_page limit items) ;;
  let (items, nextCursor) := page in
  spotifyPlaylists <-
    for_each (fun playlist => fetch GetPlaylist (playlist_request ctx (spotifyId playlist)))
             items ;;
  audioFeatures <- for_each (playlist_audio_features ctx) spotifyPlaylists ;;
  averageAudioFeatures <- lift (mapi average_of_playlist audioFeatures) ;;
  playlists <-
    lift (mapi (fun pa (_ : nat) => playlist_of (fst pa) (snd pa))
               (combine spotifyPlaylists averageAudioFeatures)) ;;
  ret {| items := playlists; total := total; nextCursor := nextCursor |}.

(** The procedure: what the resolver returns is parsed with the output
    schema, and a value that fails it is replaced by tRPC's
    "Output validation failed" error. *)
Definition getPlaylists (ctx : Ctx) (input : PlaylistsInput) : Async PlaylistsOutput :=
  output <- getPlaylists_resolve ctx input ;;
  if getPlaylists_output output then ret output
  else throw (TRPCError INTERNAL_SERVER_ERROR (lit "Output validation failed")
                        (Some ZodError)).

(** *** createPlaylist *)

Definition playlist_url (playlistId : jsstring) : jsstring :=
  lit "https://open.spotify.com/playlist/" ++ playlistId.

Definition new_playlist_request (ctx : Ctx) (input : CreatePlaylistInput) : Request :=
  {| url := API_BASE_URL ++ lit "/users/" ++ user_id ctx ++ lit "/playlists";
     query := [];
     method := POST;
     headers := [bearer ctx; content_type_json];
     body := Some (NewPlaylistBody (cp_name input) (isPublic input)
                                   (cp_description input)) |}.

Definition add_tracks_request (ctx : Ctx) (playlistId : jsstring)
           (all_uris : list jsstring) (position : Z) : Request :=
  {| url := API_BASE_URL ++ lit "/playlists/" ++ playlistId ++ lit "/tracks";
     query := [];
     method := POST;
     headers := [bearer ctx; content_type_json];
     body := Some (AddTracksBody position
                     (slice all_uris position (position + MAX_ITEMS_PER_REQUEST))) |}.

(** [addTracksToPlaylistJson.filter((json) => json.error)], read as the
    errors themselves. *)
Fixpoint errors_of {ep} (l : list (Json ep)) : list ApiError :=
  match l with
  | [] => []
  | json :: l' =>
      match error json with
      | Some e => e :: errors_of l'
      | None => errors_of l'
      end
  end.

(** [new Error(`${json.error.status}! ${json.error.message}`)] *)
Definition error_message (e : ApiError) : jsstring :=
  show_int (status e) ++ lit "! " ++ message e.

Definition tracks_not_added (playlistUrl : jsstring) : jsstring :=
  lit "Some tracks were not added to the playlist on Spotify. Visit "
    ++ playlistUrl ++ lit " to manually add the tracks.".

Definition unable_to_save (name playlistUrl : jsstring) : jsstring :=
  lit "Unable to save playlist " ++ name
    ++ lit " to the database, but the it's available at "
    ++ playlistUrl ++ lit ".".

Definition createPlaylist (ctx : Ctx) (input : CreatePlaylistInput)
  : Async CreatePlaylistOutput :=
  createPlaylistRes <- fetch NewPlaylist (new_playlist_request ctx input) ;;
  match createPlaylistRes with
  | inl e => throw (upstream_error e)
  | inr created =>
      let playlistId := pl_id created in
      let playlistUrl := playlist_url playlistId in
      let positions :=
        range 0 (Z.of_nat (length (uris input)) - 1) MAX_ITEMS_PER_REQUEST in
      let configs := map (add_tracks_request ctx playlistId (uris input)) positions in
      addTracksToPlaylistJson <- sequentialFetch AddTracks configs ;;
      let addTracksToPlaylistErrors := errors_of addTracksToPlaylistJson in
      if (0 <? length addTracksToPlaylistErrors)%nat then
        throw (TRPCError INTERNAL_SERVER_ERROR
                         (tracks_not_added playlistUrl)
                         (Some (AggregateError
                                  (map error_message addTracksToPlaylistErrors))))
      else
        try_catch
          (prisma_create {| data_spotifyId := playlistId;
                            data_createdBy := user_id ctx |} ;;;
           ret tt)
          (fun e =>
             match e with
             | PrismaExn (PrismaClientKnownRequestError c) =>
                 throw (TRPCError INTERNAL_SERVER_ERROR
                                  (unable_to_save (cp_name input) playlistUrl)
                                  (Some (PrismaCause (PrismaClientKnownRequestError c))))
             | _ => ret tt
             end) ;;;
        ret {| out_name := cp_name input; out_url := playlistUrl |}
  end.

End Router.

(* ------------------------------------------------------------------ *)
(** ** Example environments

    Concrete upstream services and stores, on which the theorems below are
    instantiated. *)

Module Demo.

Definition ctx : Ctx := {| accessToken := lit "token"; user_id := lit "alice" |}.

Definition empty_world : World := {| net := []; db := []; db_log := [] |}.

Definition no_table (_ : Z) : option TRPC_ERROR_CODE_KEY := None.

Definition track (n : N) : RawTrack :=
  {| raw_id := [n]; raw_uri := lit "spotify:track:" ++ [n]; raw_name := [n];
     raw_artists := [lit "artist"]; raw_preview_url := None;
     raw_album := {| album_name := lit "album"; album_images := [] |};
     raw_duration_ms := 1000 |}.

Definition cover (size : float) : Image :=
  {| img_url := lit "https://i.scdn.co/image/cover";
     img_height := size; img_width := size |}.

Definition playlist (i : jsstring) : RawPlaylist :=
  {| pl_id := i; pl_name := lit "mix"; pl_description := lit "";
     pl_images := [cover 640; cover 300; cover 60];
     pl_track_ids := [lit "a"; lit "b"] |}.

Definition rate_limited : ApiError := {| status := 429; message := lit "slow down" |}.

(** An upstream that answers every request with its documented shape. *)
Definition healthy (ep : Endpoint) (_ : list Request) (_ : Request) : Json ep :=
  match ep return Json ep with
  | Search => inr [track 1]
  | Recommendations => inr [track 1; track 2]
  | AudioFeaturesLookup =>
      inr [ Some {| af_danceability := 0.567; af_energy := 0.5;
                    af_tempo := 120.5; af_valence := 1 |};
            Some {| af_danceability := 0; af_energy := 0.25;
                    af_tempo := 90; af_valence := 0.75 |} ]
  | GetPlaylist => inr (playlist (lit "p"))
  | NewPlaylist => inr (playlist (lit "p"))
  | AddTracks => inr (lit "snapshot")
  end.

(** As [healthy], but the audio-features lookup is refused. *)
Definition no_audio_features (ep : Endpoint) (h : list Request) (req : Request)
  : Json ep :=
  match ep return Json ep with
  | AudioFeaturesLookup => inl rate_limited
  | ep' => healthy ep' h req
  end.

(** As [healthy], but every add-tracks request after the first one (the
    third request of a [createPlaylist] call on a fresh trace) is
    refused. *)
Definition second_batch_fails (ep : Endpoint) (h : list Request) (req : Request)
  : Json ep :=
  match ep return Json ep with
  | AddTracks => if (length h <? 2)%nat then inr (lit "snapshot") else inl rate_limited
  | ep' => healthy ep' h req
  end.

Definition seeded : RecommendationsInput :=
  {| trackSeeds := [lit "seed"]; r_limit := 2;
     r_danceability := Some 50%float; r_tempo := Some 120.5%float;
     r_valence := None; r_energy := Some 100%float |}.

(** A mixtape of [n] tracks. *)
Definition mixtape (n : nat) : CreatePlaylistInput :=
  {| uris := map (fun k => lit "spotify:track:" ++ [N.of_nat k]) (seq 0 n);
     cp_name := lit "mixtape"; isPublic := true; cp_description := lit "" |}.

Definition first_page (l : nullish Z) : PlaylistsInput :=
  {| limit := l; cursor := Undefined; isCreatorOnly := false |}.

(** An upstream that refuses every request. *)
Definition down (ep : Endpoint) (_ : list Request) (_ : Request) : Json ep :=
  inl rate_limited.

(** As [healthy], but a search finds nothing. *)
Definition nothing_found (ep : Endpoint) (h : list Request) (req : Request)
  : Json ep :=
  match ep return Json ep with
  | Search => inr []
  | ep' => healthy ep' h req
  end.

(** As [healthy], but the audio-features lookup has no entry for the
    second track. *)
Definition one_unknown_track (ep : Endpoint) (h : list Request) (req : Request)
  : Json ep :=
  match ep return Json ep with
  | AudioFeaturesLookup =>
      inr [ Some {| af_danceability := 0.567; af_energy := 0.5;
                    af_tempo := 120.5; af_valence := 1 |};
            None ]
  | ep' => healthy ep' h req
  end.

(** As [healthy], but the playlist of a row is gone. *)
Definition playlist_gone (ep : Endpoint) (h : list Request) (req : Request)
  : Json ep :=
  match ep return Json ep with
  | GetPlaylist => inl {| status := 404; message := lit "Not found." |}
  | ep' => healthy ep' h req
  end.

(** As [healthy], but the playlists have a single image. *)
Definition one_cover (ep : Endpoint) (h : list Request) (req : Request)
  : Json ep :=
  match ep return Json ep with
  | GetPlaylist =>
      inr {| pl_id := lit "p"; pl_name := lit "mix"; pl_description := lit "";
             pl_images := [cover 640]; pl_track_ids := [lit "a"; lit "b"] |}
  | ep' => healthy ep' h req
  end.

(** The query of the track picker: what was typed, offset 0, limit 5. *)
Definition typed (text : string) : SearchInput :=
  {| q := lit text; s_offset := 0; s_limit := 5 |}.

Definition row (n : nat) : PlaylistRow :=
  {| row_id := [N.of_nat n]; spotifyId := lit "p"; createdBy := lit "alice";
     createdAt := - Z.of_nat n |}.

(** A store whose table is kept newest first: [findMany] filters by
    creator, orders the rows, starts at the cursor and takes [take] rows. *)
Definition matches (where_ : option jsstring) (r : PlaylistRow) : bool :=
  match where_ with
  | Some u => jsstring_eqb (createdBy r) u
  | None => true
  end.

Fixpoint from_cursor (c : jsstring) (l : list PlaylistRow) : list PlaylistRow :=
  match l with
  | [] => []
  | r :: l' => if jsstring_eqb (row_id r) c then l else from_cursor c l'
  end.

Definition count (table : list PlaylistRow) (where_ : option jsstring) : Z :=
  Z.of_nat (length (filter (matches where_) table)).

Definition findMany (table : list PlaylistRow) (args : FindManyArgs)
  : list PlaylistRow :=
  let l := filter (matches (fm_where args)) table in
  let l := match orderBy_createdAt args with desc => l | asc => rev l end in
  let l := match fm_cursor args with Some c => from_cursor c l | None => l end in
  firstn (Z.to_nat (take args)) l.

Definition create_ok (table : list PlaylistRow) (data : CreateData)
  : PrismaError + PlaylistRow :=
  inr {| row_id := [N.of_nat (length table)];
         spotifyId := data_spotifyId data;
         createdBy := data_createdBy data;
         createdAt := Z.of_nat (length table) |}.

Definition create_fails (e : PrismaError) (_ : list PlaylistRow) (_ : CreateData)
  : PrismaError + PlaylistRow :=
  inl e.

Definition table (n : nat) : World :=
  {| net := []; db := map row (seq 1 n); db_log := [] |}.

End Demo.

(* ------------------------------------------------------------------ *)
(** ** Observations on runs *)

Definition exchange_of (ep : Endpoint) (p : Request * Json ep) : Exchange :=
  {| ex_endpoint := ep; ex_request := fst p; ex_json := snd p |}.
Arguments exchange_of : clear implicits.

(** The exchanges a run added to the trace. *)
Definition new_exchanges (w w' : World) : list Exchange :=
  skipn (length (net w)) (net w').

(** [w'] is [w] after some exchanges with upstream, all of them satisfying
    [P], and no change to the store. *)
Definition extends (P : Exchange -> Prop) (w w' : World) : Prop :=
  db w' = db w /\ db_log w' = db_log w
  /\ exists new, net w' = net w ++ new /\ Forall P new.

(** The number of batches of [MAX_ITEMS_PER_REQUEST] that cover [n] items. *)
Definition batches_of (n : nat) : nat := (n + 99) / 100.


(** [URLSearchParams.prototype.get]: the first value under a name. *)
Definition get_param (key : string) (ps : list (jsstring * ParamValue))
  : option ParamValue :=
  option_map snd (find (fun p => jsstring_eqb (fst p) (lit key)) ps).

(** The message of an error mentions a string. *)
Definition mentions (msg s : jsstring) : Prop :=
  exists pre post, msg = pre ++ s ++ post.

Definition all_zero (af : AudioFeatures) : Prop :=
  danceability af = 0%float /\ energy af = 0%float
  /\ tempo af = 0%float /\ valence af = 0%float.

(** The errors carried by a list of exchanges, in order. *)
Definition errors_in (l : list Exchange) : list ApiError :=
  flat_map (fun x => match ex_error x with Some e => [e] | None => [] end) l.

(** The add-tracks requests of a call, given the id of the new playlist. *)
Definition add_tracks_configs (ctx : Ctx) (input : CreatePlaylistInput)
           (playlistId : jsstring) : list Request :=
  map (add_tracks_request ctx playlistId (uris input))
      (range 0 (Z.of_nat (length (uris input)) - 1) MAX_ITEMS_PER_REQUEST).

(** The query [getPlaylists] sends to [findMany]. *)
Definition page_query (ctx : Ctx) (input : PlaylistsInput) : FindManyArgs :=
  {| take := coalesce (limit input) 50%Z + 1;
     fm_cursor := cursor_arg input;
     orderBy_createdAt := desc;
     fm_where := creator_filter ctx input |}.

(** The lookups of a well-formed upstream: a playlist request is answered
    with a playlist, and a successful audio-features lookup has no null
    entry. *)
Definition answers_playlists
           (upstream : forall ep : Endpoint, list Request -> Request -> Json ep)
  : Prop :=
  forall h req, exists p, upstream GetPlaylist h req = inr p.

Definition answers_audio_features
           (upstream : forall ep : Endpoint, list Request -> Request -> Json ep)
  : Prop :=
  forall h req audio_features,
    upstream AudioFeaturesLookup h req = inr audio_features ->
    Forall (fun entry => entry <> None) audio_features.

(** The request [search] builds before it looks at the query. *)
Definition search_request (ctx : Ctx) (input : SearchInput) : Request :=
  {| url := API_BASE_URL ++ lit "/search";
     query := [ (lit "q", PStr (q input));
                (lit "type", PStr (lit "track"));
                (lit "offset", PNum (s_offset input));
                (lit "limit", PNum (s_limit input)) ];
     method := GET;
     headers := [(lit "Authorization", lit "Bearer " ++ accessToken ctx)];
     body := None |}.

(** The playlist an exchange returned, for a playlist request that was
    answered with one. *)
Definition playlist_body (x : Exchange) : option RawPlaylist :=
  match ex_endpoint x as ep return Json ep -> option RawPlaylist with
  | GetPlaylist => fun json => match json with inr p => Some p | inl _ => None end
  | _ => fun _ => None
  end (ex_json x).

(** The last element of a list, if any. *)
Definition last_of {A} (l : list A) : option A :=
  match rev l with
  | [] => None
  | x :: _ => Some x
  end.

(** pages/mixtapes.tsx, the list shown by the page:
    [data?.pages.reduce((acc, curr) => [...acc, ...curr.items], [])],
    where [data] is undefined until the first page has arrived. *)
Definition shown_playlists (data : option (list PlaylistsOutput))
  : option (list Playlist) :=
  option_map (fun pages => fold_left (fun acc curr => acc ++ items curr) pages [])
             data.

(* ------------------------------------------------------------------ *)
(** ** Pure lemmas: strings, ranges and slices *)

Lemma trimStart_blank (s : jsstring) :
  Forall (fun c => is_white_space c = true) s -> trimStart s = [].
Proof.
  induction 1 as [| c s Hc _ IH]; simpl.
  - reflexivity.
  - rewrite Hc. exact IH.
Qed.

Lemma trim_blank (s : jsstring) :
  Forall (fun c => is_white_space c = true) s -> trim s = [].
Proof.
  intros H. unfold trim, trimEnd. rewrite (trimStart_blank H). reflexivity.
Qed.

Lemma trimStart_head (s : jsstring) :
  match trimStart s with
  | [] => True
  | c :: _ => is_white_space c = false
  end.
Proof.
  induction s as [| c s IH]; simpl; [exact I |].
  destruct (is_white_space c) eqn:E; [exact IH | exact E].
Qed.

Lemma trimStart_nil_blank (s : jsstring) :
  trimStart s = [] -> Forall (fun c => is_white_space c = true) s.
Proof.
  induction s as [| c s IH]; simpl; intros H.
  - constructor.
  - destruct (is_white_space c) eqn:E; [| discriminate].
    constructor; auto.
Qed.

(** [trimStart] only removes characters, so it never empties a string that
    [trimEnd] would not: a string whose trim is empty is blank. *)
Lemma trim_nil_blank (s : jsstring) :
  trim s = [] -> Forall (fun c => is_white_space c = true) s.
Proof.
  unfold trim, trimEnd. intros H.
  assert (Hr : trimStart (rev (trimStart s)) = []).
  { rewrite <- (rev_involutive (trimStart (rev (trimStart s)))), H. reflexivity. }
  apply trimStart_nil_blank in Hr.
  pose proof (trimStart_head s) as Hh.
  destruct (trimStart s) as [| c t] eqn:E.
  - apply trimStart_nil_blank; exact E.
  - exfalso. rewrite Forall_forall in Hr.
    assert (is_white_space c = true) by (apply Hr, in_rev; rewrite rev_involutive; left; reflexivity).
    congruence.
Qed.

Section RangeFacts.

Variables (end_ step : Z).
Hypothesis step_pos : (0 < step)%Z.

(** The loop yields [i, i + step, ...] for as long as the values stay at
    or below [end_], provided the fuel covers that many rounds. *)
Lemma range_loop_spec (count : nat) :
  forall (fuel : nat) (i : Z),
    (count <= fuel)%nat ->
    (end_ < i + step * Z.of_nat count)%Z ->
    (count = 0%nat \/ i + step * (Z.of_nat count - 1) <= end_)%Z ->
    range_loop fuel i end_ step
    = map (fun k => (i + step * Z.of_nat k)%Z) (seq 0 count).
Proof.
  induction count as [| count IH]; intros fuel i Hfuel Hpast Hlast.
  - simpl. destruct fuel as [| fuel]; simpl; [reflexivity |].
    destruct (Z.leb_spec i end_); [lia | reflexivity].
  - destruct fuel as [| fuel]; [lia |]. simpl.
    destruct Hlast as [Hlast | Hlast]; [discriminate |].
    destruct (Z.leb_spec i end_) as [Hle | Hgt]; [| nia].
    f_equal; [f_equal; lia |].
    rewrite <- seq_shift, map_map.
    rewrite (IH fuel (i + step)%Z); [| lia | lia |].
    + apply map_ext. intros k. lia.
    + destruct count as [| count]; [left; reflexivity | right; lia].
Qed.

End RangeFacts.

Lemma range_batches (n : nat) :
  range 0 (Z.of_nat n - 1) 100
  = map (fun k => (100 * Z.of_nat k)%Z) (seq 0 (batches_of n)).
Proof.
  unfold range, batches_of.
  pose proof (Nat.div_mod_eq (n + 99) 100) as Hdm.
  pose proof (Nat.mod_upper_bound (n + 99) 100 ltac:(lia)) as Hmod.
  rewrite (@range_loop_spec (Z.of_nat n - 1) 100 ltac:(lia) ((n + 99) / 100)).
  - apply map_ext. intros k. lia.
  - lia.
  - lia.
  - destruct ((n + 99) / 100)%nat eqn:E; [left; reflexivity | right; lia].
Qed.

Lemma slice_batch {A} (l : list A) (p : nat) :
  (p <= length l)%nat ->
  slice l (Z.of_nat p) (Z.of_nat p + 100) = firstn 100 (skipn p l).
Proof.
  intros Hp. unfold slice, rel_index.
  destruct (Z.ltb_spec (Z.of_nat p) 0); [lia |].
  destruct (Z.ltb_spec (Z.of_nat p + 100) 0); [lia |].
  rewrite (Z.min_l (Z.of_nat p)) by lia.
  rewrite Nat2Z.id.
  destruct (Z.le_ge_cases (Z.of_nat p + 100) (Z.of_nat (length l))) as [H1 | H1].
  - rewrite Z.min_l by lia. f_equal. lia.
  - rewrite Z.min_r by lia.
    rewrite !firstn_all2; try reflexivity; rewrite length_skipn; lia.
Qed.

Lemma firstn_plus {A} (a b : nat) (l : list A) :
  firstn a l ++ firstn b (skipn a l) = firstn (a + b) l.
Proof.
  revert l. induction a as [| a IH]; intros l; simpl; [reflexivity |].
  destruct l as [| x l]; simpl.
  - rewrite firstn_nil. reflexivity.
  - f_equal. apply IH.
Qed.

(** Consecutive chunks of [c] elements, taken at offsets [0, c, 2c, ...],
    put together give back the prefix they cover. *)
Lemma concat_chunks {A} (c m : nat) (l : list A) :
  concat (map (fun k => firstn c (skipn (c * k) l)) (seq 0 m)) = firstn (c * m) l.
Proof.
  induction m as [| m IH].
  - rewrite Nat.mul_0_r. reflexivity.
  - rewrite seq_S, map_app, concat_app, IH. simpl.
    rewrite app_nil_r, firstn_plus. f_equal. lia.
Qed.

(* ------------------------------------------------------------------ *)
(** ** Runs of the monad *)

Lemma extends_refl P w : extends P w w.
Proof.
  repeat split. exists []. rewrite app_nil_r. split; [reflexivity | constructor].
Qed.

Lemma extends_trans P w1 w2 w3 :
  extends P w1 w2 -> extends P w2 w3 -> extends P w1 w3.
Proof.
  intros (Hd1 & Hl1 & n1 & Hn1 & HP1) (Hd2 & Hl2 & n2 & Hn2 & HP2).
  repeat split; try congruence.
  exists (n1 ++ n2). split.
  - rewrite Hn2, Hn1, app_assoc. reflexivity.
  - apply Forall_app; split; assumption.
Qed.

Lemma extends_weaken (P Q : Exchange -> Prop) w w' :
  (forall x, P x -> Q x) -> extends P w w' -> extends Q w w'.
Proof.
  intros HPQ (Hd & Hl & n & Hn & HP). repeat split; try assumption.
  exists n. split; [assumption |]. eapply Forall_impl; eauto.
Qed.

Lemma new_exchanges_app w w' new :
  net w' = net w ++ new -> new_exchanges w w' = new.
Proof.
  intros H. unfold new_exchanges. rewrite H, skipn_app, skipn_all, Nat.sub_diag.
  reflexivity.
Qed.

(** Reads the exchanges added by a run whose final trace is an explicit
    extension of the initial one. *)
Ltac added_exchanges_in H :=
  unfold new_exchanges in H; cbn [snd net] in H;
  rewrite skipn_app, skipn_all, Nat.sub_diag in H; cbn [skipn app] in H.

Lemma world_eta (w : World) :
  {| net := net w; db := db w; db_log := db_log w |} = w.
Proof. destruct w; reflexivity. Qed.

Section Runs.

Variable upstream : forall ep : Endpoint, list Request -> Request -> Json ep.

Lemma fetch_extends ep req w :
  extends (fun x => ex_endpoint x = ep) w (snd (fetch upstream ep req w)).
Proof.
  unfold fetch; simpl. repeat split. eexists. split; [reflexivity |].
  repeat constructor.
Qed.

(** A run of [sequentialFetch] never throws: it yields one body per
    request and appends exactly these exchanges, in order. *)
Lemma sequentialFetch_run ep (configs : list Request) :
  forall w, exists jsons,
    length jsons = length configs
    /\ sequentialFetch upstream ep configs w
       = (Ok jsons,
          {| net := net w ++ map (exchange_of ep) (combine configs jsons);
             db := db w; db_log := db_log w |}).
Proof.
  unfold sequentialFetch.
  induction configs as [| req configs IH]; intros w.
  - exists []. split; [reflexivity |]. simpl. unfold ret.
    rewrite app_nil_r, world_eta. reflexivity.
  - simpl. unfold bind at 1. unfold fetch at 1.
    set (json := upstream ep (map ex_request (net w)) req).
    set (w1 := {| net := net w ++ [ {| ex_endpoint := ep; ex_request := req;
                                      ex_json := json |} ];
                  db := db w; db_log := db_log w |}).
    destruct (IH w1) as (jsons & Hlen & Hrun).
    exists (json :: jsons). split; [simpl; congruence |].
    unfold bind at 1. rewrite Hrun. unfold ret. simpl.
    rewrite <- app_assoc. reflexivity.
Qed.

Lemma for_each_map {A B C} (g : A -> B) (f : B -> Async C) (l : list A) :
  for_each (fun x => f (g x)) l = for_each f (map g l).
Proof.
  induction l as [| x l IH]; simpl; [reflexivity |]. rewrite IH. reflexivity.
Qed.

(** A traversal whose steps only talk to upstream only talks to upstream. *)
Lemma for_each_extends {A B} P (f : A -> Async B) (l : list A) :
  (forall x w, extends P w (snd (f x w))) ->
  forall w, extends P w (snd (for_each f l w)).
Proof.
  intros Hf. induction l as [| x l IH]; intros w; simpl.
  - apply extends_refl.
  - unfold bind at 1. specialize (Hf x w).
    destruct (f x w) as [[y | e] w1]; simpl in *; [| exact Hf].
    unfold bind at 1. specialize (IH w1).
    destruct (for_each f l w1) as [[ys | e] w2]; simpl in *;
      eapply extends_trans; eauto.
Qed.

Lemma errors_of_exchanges ep (configs : list Request) (jsons : list (Json ep)) :
  length jsons = length configs ->
  flat_map (fun x => match ex_error x with Some e => [e] | None => [] end)
           (map (exchange_of ep) (combine configs jsons))
  = errors_of jsons.
Proof.
  revert jsons. induction configs as [| c configs IH]; intros [| j jsons] Hlen;
    simpl in *; try discriminate; try reflexivity.
  unfold ex_error at 1. simpl. rewrite IH by lia.
  destruct (error j); reflexivity.
Qed.

Lemma requests_of_exchanges ep (configs : list Request) (jsons : list (Json ep)) :
  length jsons = length configs ->
  map ex_request (map (exchange_of ep) (combine configs jsons)) = configs.
Proof.
  revert jsons. induction configs as [| c configs IH]; intros [| j jsons] Hlen;
    simpl in *; try discriminate; try reflexivity.
  f_equal. apply IH. lia.
Qed.

End Runs.

(* ------------------------------------------------------------------ *)
(** ** search *)

Section SearchFacts.

Variable TRPC_ERROR_CODE_KEY_BY_HTTP_STATUS : Z -> option TRPC_ERROR_CODE_KEY.
Variable upstream : forall ep : Endpoint, list Request -> Request -> Json ep.

Let table := TRPC_ERROR_CODE_KEY_BY_HTTP_STATUS.

(** C9: a query that is empty or made of white space only is answered
    with the empty track list, and the world is left as it was: nothing
    is added to the network trace. *)
Theorem search_blank_query (ctx : Ctx) (input : SearchInput) (w : World) :
  Forall (fun c => is_white_space c = true) (q input) ->
  search table upstream ctx input w = (Ok [], w)
  /\ new_exchanges w (snd (search table upstream ctx input w)) = [].
Proof.
  intros Hblank. unfold search.
  rewrite (trim_blank Hblank). simpl. unfold ret. split; [reflexivity |].
  simpl. unfold new_exchanges. apply skipn_all.
Qed.

(** Any other query goes to the network: exactly one request is sent. *)
Lemma search_nonblank_fetches (ctx : Ctx) (input : SearchInput) (w : World) :
  ~ Forall (fun c => is_white_space c = true) (q input) ->
  exists x, new_exchanges w (snd (search table upstream ctx input w)) = [x]
            /\ ex_endpoint x = Search
            /\ get_param "q" (query (ex_request x)) = Some (PStr (q input)).
Proof.
  intros Hq. unfold search.
  destruct (trim (q input)) as [| c t] eqn:E.
  - exfalso. apply Hq, trim_nil_blank, E.
  - simpl. unfold bind, fetch.
    match goal with
    | |- context [upstream Search ?h ?r] =>
        set (json := upstream Search h r);
        exists {| ex_endpoint := Search; ex_request := r; ex_json := json |}
    end.
    split; [| split; reflexivity].
    destruct json as [e | tracks_items]; [| destruct (length tracks_items =? 0)%nat];
      simpl; apply new_exchanges_app; reflexivity.
Qed.

End SearchFacts.

(** A query of a space, a tab and a no-break space. *)
Lemma search_blank_query_witness :
  let input := {| q := [0x20; 0x9; 0xA0]%N; s_offset := 0; s_limit := 5 |} in
  search Demo.no_table Demo.healthy Demo.ctx input Demo.empty_world
  = (Ok [], Demo.empty_world)
  /\ new_exchanges Demo.empty_world
       (snd (search Demo.no_table Demo.healthy Demo.ctx input Demo.empty_world)) = [].
Proof.
  apply search_blank_query. repeat constructor.
Defined.

(* ------------------------------------------------------------------ *)
(** ** Traversals that may throw *)

Lemma mapi_from_total {A B} (g : A -> B) (l : list A) :
  forall i, mapi_from (fun x _ => Ok (g x)) i l = Ok (map g l).
Proof.
  induction l as [| x l IH]; intros i; simpl; [reflexivity |].
  rewrite IH. reflexivity.
Qed.

(** What a traversal that did not throw returned. *)
Lemma mapi_from_ok {A B} (f : A -> nat -> Outcome B) (l : list A) :
  forall i r,
    mapi_from f i l = Ok r ->
    length r = length l
    /\ forall k y, nth_error r k = Some y ->
                   exists x, nth_error l k = Some x /\ f x (i + k) = Ok y.
Proof.
  induction l as [| x l IH]; intros i r H; simpl in H.
  - inversion H; subst. split; [reflexivity |].
    intros [| k] y Hk; discriminate.
  - destruct (f x i) as [y0 | e] eqn:Hx; [| discriminate].
    destruct (mapi_from f (S i) l) as [ys | e] eqn:Hl; [| discriminate].
    inversion H; subst. destruct (IH _ _ Hl) as [Hlen Hnth].
    split; [simpl; congruence |].
    intros [| k] y Hk; simpl in Hk.
    + inversion Hk; subst. exists x. rewrite Nat.add_0_r. split; [reflexivity | exact Hx].
    + destruct (Hnth _ _ Hk) as (x' & Hx' & Hf). exists x'.
      split; [exact Hx' |]. rewrite <- Hf. f_equal. lia.
Qed.

(** A traversal throws only where its callback does. *)
Lemma mapi_from_returns {A B} (f : A -> nat -> Outcome B) (l : list A) :
  forall i,
    (forall k x, nth_error l k = Some x -> exists y, f x (i + k) = Ok y) ->
    exists r, mapi_from f i l = Ok r.
Proof.
  induction l as [| x l IH]; intros i H; simpl.
  - exists []. reflexivity.
  - destruct (H 0%nat x eq_refl) as [y Hy]. rewrite Nat.add_0_r in Hy. rewrite Hy.
    destruct (IH (S i)) as [ys Hys].
    + intros k x' Hk. destruct (H (S k) x' Hk) as [y' Hy'].
      exists y'. rewrite <- Hy'. f_equal. lia.
    + rewrite Hys. eexists. reflexivity.
Qed.

(* ------------------------------------------------------------------ *)
(** ** getRecommendations *)

Section RecommendationsFacts.

Variable table : Z -> option TRPC_ERROR_CODE_KEY.
Variable upstream : forall ep : Endpoint, list Request -> Request -> Json ep.

(** With at least one seed the call starts with the recommendation
    request. *)
Lemma getRecommendations_first_request (ctx : Ctx) (input : RecommendationsInput)
      (w : World) :
  trackSeeds input <> [] ->
  exists json rest,
    new_exchanges w (snd (getRecommendations table upstream ctx input w))
    = {| ex_endpoint := Recommendations;
         ex_request := recommendations_request ctx input;
         ex_json := json |} :: rest.
Proof.
  intros Hseeds. unfold getRecommendations.
  destruct (trackSeeds input) as [| s seeds]; [congruence |]. simpl.
  unfold bind at 1. unfold fetch at 1.
  set (json := upstream Recommendations _ _). exists json.
  destruct json as [e | tracks].
  - exists []. simpl. apply new_exchanges_app. reflexivity.
  - unfold bind, fetch, lift. simpl. eexists.
    apply new_exchanges_app. simpl. rewrite <- app_assoc. reflexivity.
Qed.

Lemma get_param_targets (input : RecommendationsInput) :
  let ps := recommendation_params input in
  get_param "target_danceability" ps
  = option_map (fun d => PNum (d / 100)%float) (r_danceability input)
  /\ get_param "target_tempo" ps = option_map PNum (r_tempo input)
  /\ get_param "target_valence" ps
     = option_map (fun v => PNum (v / 100)%float) (r_valence input)
  /\ get_param "target_energy" ps
     = option_map (fun e => PNum (e / 100)%float) (r_energy input).
Proof.
  unfold recommendation_params.
  destruct (r_danceability input), (r_tempo input), (r_valence input),
    (r_energy input); repeat split; reflexivity.
Qed.

(** C7: in the recommendation request, a target for danceability, valence
    or energy that the caller gave is the given number divided by 100 (0
    becomes 0, 50 becomes 0.5, 100 becomes 1), a given tempo is passed as
    it is, and a target the caller left out has no parameter. *)
Theorem getRecommendations_targets (ctx : Ctx) (input : RecommendationsInput)
        (w : World) :
  trackSeeds input <> [] ->
  exists x rest,
    new_exchanges w (snd (getRecommendations table upstream ctx input w)) = x :: rest
    /\ ex_endpoint x = Recommendations
    /\ get_param "target_danceability" (query (ex_request x))
       = option_map (fun d => PNum (d / 100)%float) (r_danceability input)
    /\ get_param "target_tempo" (query (ex_request x))
       = option_map PNum (r_tempo input)
    /\ get_param "target_valence" (query (ex_request x))
       = option_map (fun v => PNum (v / 100)%float) (r_valence input)
    /\ get_param "target_energy" (query (ex_request x))
       = option_map (fun e => PNum (e / 100)%float) (r_energy input)
    /\ (0 / 100 = 0 /\ 50 / 100 = 0.5 /\ 100 / 100 = 1)%float.
Proof.
  intros Hseeds.
  destruct (getRecommendations_first_request ctx input w Hseeds) as (json & rest & Hnew).
  eexists. exists rest. split; [exact Hnew |]. split; [reflexivity |].
  simpl ex_request. simpl query.
  destruct (get_param_targets input) as (Hd & Ht & Hv & He).
  repeat split; assumption || reflexivity.
Qed.

(** The run of a call whose recommendation request succeeded. *)
Lemma getRecommendations_run (ctx : Ctx) (input : RecommendationsInput)
      (w : World) (tracks : list RawTrack) :
  trackSeeds input <> [] ->
  upstream Recommendations (map ex_request (net w))
           (recommendations_request ctx input) = inr tracks ->
  fst (getRecommendations table upstream ctx input w)
  = match upstream AudioFeaturesLookup
            (map ex_request (net w) ++ [recommendations_request ctx input])
            (audio_features_request ctx (map raw_id tracks)) with
    | inr audio_features =>
        mapi (fun track i =>
                match scaled_features audio_features i with
                | Ok af => Ok (track_of track (Some af))
                | Throw e => Throw e
                end) tracks
    | inl _ =>
        Ok (map (fun track => track_of track (Some INITIAL_AUDIO_FEATURES)) tracks)
    end.
Proof.
  intros Hseeds Hrec. unfold getRecommendations.
  destruct (trackSeeds input) as [| s seeds]; [congruence |]. simpl.
  unfold bind at 1. unfold fetch at 1. rewrite Hrec.
  unfold bind, fetch, lift. simpl. rewrite map_app. simpl.
  destruct (upstream AudioFeaturesLookup _ _) as [e | audio_features].
  - unfold mapi. apply mapi_from_total.
  - reflexivity.
Qed.

(** C5: when the recommendation request succeeds and the audio-features
    lookup that follows is answered with an error-shaped body, the call
    does not fail: it returns every recommended track, in order, and the
    danceability, energy, tempo and valence of each returned track are
    0. *)
Theorem getRecommendations_without_audio_features
        (ctx : Ctx) (input : RecommendationsInput) (w : World)
        (tracks : list RawTrack) (e : ApiError) :
  trackSeeds input <> [] ->
  upstream Recommendations (map ex_request (net w))
           (recommendations_request ctx input) = inr tracks ->
  upstream AudioFeaturesLookup
           (map ex_request (net w) ++ [recommendations_request ctx input])
           (audio_features_request ctx (map raw_id tracks)) = inl e ->
  fst (getRecommendations table upstream ctx input w)
  = Ok (map (fun track => track_of track (Some INITIAL_AUDIO_FEATURES)) tracks)
  /\ all_zero INITIAL_AUDIO_FEATURES
  /\ exists l,
      fst (getRecommendations table upstream ctx input w) = Ok l
      /\ length l = length tracks
      /\ forall i track,
          nth_error tracks i = Some track ->
          exists t,
            nth_error l i = Some t
            /\ track_id t = raw_id track /\ uri t = raw_uri track
            /\ name t = raw_name track
            /\ features t = Some {| danceability := 0; energy := 0;
                                    tempo := 0; valence := 0 |}.
Proof.
  intros Hseeds Hrec Haf.
  rewrite (@getRecommendations_run ctx input w tracks Hseeds Hrec), Haf.
  split; [reflexivity |]. split; [repeat split |].
  eexists. split; [reflexivity |]. split; [apply length_map |].
  intros i track Hi. exists (track_of track (Some INITIAL_AUDIO_FEATURES)).
  split; [exact (map_nth_error
                   (fun track => track_of track (Some INITIAL_AUDIO_FEATURES))
                   _ _ Hi) |].
  repeat split.
Qed.


End RecommendationsFacts.

Lemma getRecommendations_targets_witness :
  exists x rest,
    new_exchanges Demo.empty_world
      (snd (getRecommendations Demo.no_table Demo.healthy Demo.ctx Demo.seeded
                               Demo.empty_world)) = x :: rest
    /\ ex_endpoint x = Recommendations
    /\ get_param "target_danceability" (query (ex_request x))
       = option_map (fun d => PNum (d / 100)%float) (Some 50%float)
    /\ get_param "target_tempo" (query (ex_request x))
       = option_map PNum (Some 120.5%float)
    /\ get_param "target_valence" (query (ex_request x))
       = option_map (fun v => PNum (v / 100)%float) None
    /\ get_param "target_energy" (query (ex_request x))
       = option_map (fun e => PNum (e / 100)%float) (Some 100%float)
    /\ (0 / 100 = 0 /\ 50 / 100 = 0.5 /\ 100 / 100 = 1)%float.
Proof.
  apply (getRecommendations_targets Demo.no_table Demo.healthy Demo.ctx
                                    Demo.seeded Demo.empty_world).
  discriminate.
Defined.

Lemma getRecommendations_without_audio_features_witness :
  fst (getRecommendations Demo.no_table Demo.no_audio_features Demo.ctx Demo.seeded
                          Demo.empty_world)
  = Ok (map (fun track => track_of track (Some INITIAL_AUDIO_FEATURES))
            [Demo.track 1; Demo.track 2])
  /\ all_zero INITIAL_AUDIO_FEATURES
  /\ exists l,
      fst (getRecommendations Demo.no_table Demo.no_audio_features Demo.ctx
                              Demo.seeded Demo.empty_world) = Ok l
      /\ length l = length [Demo.track 1; Demo.track 2]
      /\ forall i track,
          nth_error [Demo.track 1; Demo.track 2] i = Some track ->
          exists t,
            nth_error l i = Some t
            /\ track_id t = raw_id track /\ uri t = raw_uri track
            /\ name t = raw_name track
            /\ features t = Some {| danceability := 0; energy := 0;
                                    tempo := 0; valence := 0 |}.
Proof.
  apply (@getRecommendations_without_audio_features
           Demo.no_table Demo.no_audio_features Demo.ctx Demo.seeded
           Demo.empty_world [Demo.track 1; Demo.track 2] Demo.rate_limited).
  - discriminate.
  - reflexivity.
  - reflexivity.
Defined.


(** The run of the call above: the two recommended tracks, with 0.567
    scaled to 56. *)
Example getRecommendations_scaled_run :
  map features
      (match fst (getRecommendations Demo.no_table Demo.healthy Demo.ctx Demo.seeded
                                     Demo.empty_world) with
       | Ok r => r
       | Throw _ => []
       end)
  = [ Some {| danceability := 56; energy := 50; tempo := 120.5; valence := 100 |};
      Some {| danceability := 0; energy := 25; tempo := 90; valence := 75 |} ].
Proof. reflexivity. Qed.

(* ------------------------------------------------------------------ *)
(** ** The audio-feature aggregator *)

(** Summing records field by field sums each field. *)
Lemma fold_add_features (l : list AudioFeatures) :
  forall acc,
    danceability (fold_left add_features l acc)
    = fold_left PrimFloat.add (map danceability l) (danceability acc)
    /\ energy (fold_left add_features l acc)
       = fold_left PrimFloat.add (map energy l) (energy acc)
    /\ tempo (fold_left add_features l acc)
       = fold_left PrimFloat.add (map tempo l) (tempo acc)
    /\ valence (fold_left add_features l acc)
       = fold_left PrimFloat.add (map valence l) (valence acc).
Proof.
  induction l as [| x l IH]; intros acc; simpl.
  - repeat split.
  - destruct (IH (add_features acc x)) as (Hd & He & Ht & Hv).
    rewrite Hd, He, Ht, Hv. repeat split.
Qed.

(** C4: on a list with at least one record each field of the result is the
    arithmetic mean of that field over the list (the sum, in list order,
    divided by the number of records); on the empty list the result is the
    all-zero sentinel, none of whose fields is NaN. *)
Theorem calculateAverageAudioFeatures_mean (x : AudioFeatures) (l : list AudioFeatures) :
  (danceability (calculateAverageAudioFeatures (x :: l))
   = mean (map danceability (x :: l))
   /\ energy (calculateAverageAudioFeatures (x :: l)) = mean (map energy (x :: l))
   /\ tempo (calculateAverageAudioFeatures (x :: l)) = mean (map tempo (x :: l))
   /\ valence (calculateAverageAudioFeatures (x :: l)) = mean (map valence (x :: l)))
  /\ calculateAverageAudioFeatures [] = INITIAL_AUDIO_FEATURES
  /\ all_zero (calculateAverageAudioFeatures [])
  /\ (PrimFloat.is_nan (danceability (calculateAverageAudioFeatures [])) = false
      /\ PrimFloat.is_nan (energy (calculateAverageAudioFeatures [])) = false
      /\ PrimFloat.is_nan (tempo (calculateAverageAudioFeatures [])) = false
      /\ PrimFloat.is_nan (valence (calculateAverageAudioFeatures [])) = false).
Proof.
  split; [| repeat split].
  unfold calculateAverageAudioFeatures, mean, sum.
  destruct (fold_add_features (x :: l) INITIAL_AUDIO_FEATURES) as (Hd & He & Ht & Hv).
  cbn [danceability energy tempo valence].
  rewrite Hd, He, Ht, Hv, !length_map. repeat split.
Qed.

(** Three records: danceability 50, 25 and 75 averages to 50, tempo 120,
    90 and 90 to 100. *)
Example calculateAverageAudioFeatures_run :
  calculateAverageAudioFeatures
    [ {| danceability := 50; energy := 25; tempo := 120; valence := 0 |};
      {| danceability := 25; energy := 25; tempo := 90; valence := 100 |};
      {| danceability := 75; energy := 25; tempo := 90; valence := 50 |} ]
  = {| danceability := 50; energy := 25; tempo := 100; valence := 50 |}.
Proof. reflexivity. Qed.

(* ------------------------------------------------------------------ *)
(** ** createPlaylist *)

Lemma errors_in_nil_iff (l : list Exchange) :
  errors_in l = [] <-> Forall (fun x => ex_error x = None) l.
Proof.
  unfold errors_in. induction l as [| x l IH]; simpl.
  - split; constructor.
  - destruct (ex_error x) eqn:E; simpl.
    + split; [discriminate | intros H; inversion H; congruence].
    + rewrite IH. split; [constructor; assumption | intros H; inversion H; assumption].
Qed.

Lemma mentions_middle (pre s post : jsstring) : mentions (pre ++ s ++ post) s.
Proof. exists pre, post. reflexivity. Qed.

Section CreatePlaylistFacts.

Variable table : Z -> option TRPC_ERROR_CODE_KEY.
Variable upstream : forall ep : Endpoint, list Request -> Request -> Json ep.
Variable store_create : list PlaylistRow -> CreateData -> PrismaError + PlaylistRow.

(** A call whose first request is refused stops there. *)
Lemma createPlaylist_refused (ctx : Ctx) (input : CreatePlaylistInput) (w : World)
      (e : ApiError) :
  upstream NewPlaylist (map ex_request (net w)) (new_playlist_request ctx input)
  = inl e ->
  createPlaylist table upstream store_create ctx input w
  = (Throw (upstream_error table e),
     {| net := net w ++ [ {| ex_endpoint := NewPlaylist;
                             ex_request := new_playlist_request ctx input;
                             ex_json := inl e |} ];
        db := db w; db_log := db_log w |}).
Proof.
  intros Hnew. unfold createPlaylist, bind at 1, fetch at 1. rewrite Hnew.
  reflexivity.
Qed.

(** The run of a call whose playlist was created: the add-tracks requests
    are all sent, and what follows depends on the errors among their
    bodies and on the store. *)
Lemma createPlaylist_run (ctx : Ctx) (input : CreatePlaylistInput) (w : World)
      (created : RawPlaylist) :
  upstream NewPlaylist (map ex_request (net w)) (new_playlist_request ctx input)
  = inr created ->
  exists jsons : list (Json AddTracks),
    let configs := add_tracks_configs ctx input (pl_id created) in
    let sent :=
      {| ex_endpoint := NewPlaylist;
         ex_request := new_playlist_request ctx input;
         ex_json := inr created |}
        :: map (exchange_of AddTracks) (combine configs jsons) in
    let data := {| data_spotifyId := pl_id created; data_createdBy := user_id ctx |} in
    let out := {| out_name := cp_name input;
                  out_url := playlist_url (pl_id created) |} in
    length jsons = length configs
    /\ createPlaylist table upstream store_create ctx input w
       = if (0 <? length (errors_of jsons))%nat then
           (Throw (TRPCError INTERNAL_SERVER_ERROR
                             (tracks_not_added (playlist_url (pl_id created)))
                             (Some (AggregateError
                                      (map error_message (errors_of jsons))))),
            {| net := net w ++ sent; db := db w; db_log := db_log w |})
         else
           match store_create (db w) data with
           | inl e =>
               (match e with
                | PrismaClientKnownRequestError _ =>
                    Throw (TRPCError INTERNAL_SERVER_ERROR
                                     (unable_to_save (cp_name input)
                                                     (playlist_url (pl_id created)))
                                     (Some (PrismaCause e)))
                | _ => Ok out
                end,
                {| net := net w ++ sent; db := db w;
                   db_log := db_log w ++ [Create data] |})
           | inr row =>
               (Ok out,
                {| net := net w ++ sent; db := db w ++ [row];
                   db_log := db_log w ++ [Create data] |})
           end.
Proof.
  intros Hnew. unfold createPlaylist, bind at 1, fetch at 1. rewrite Hnew.
  cbv beta iota zeta.
  fold (add_tracks_configs ctx input (pl_id created)).
  set (configs := add_tracks_configs ctx input (pl_id created)).
  match goal with
  | |- context [bind (sequentialFetch upstream AddTracks configs) _ ?w1] =>
      destruct (sequentialFetch_run upstream AddTracks configs w1)
        as (jsons & Hlen & Hrun)
  end.
  exists jsons. split; [exact Hlen |].
  unfold bind at 1. rewrite Hrun. cbn [net db db_log]. rewrite <- app_assoc.
  cbn [app].
  destruct (0 <? length (errors_of jsons))%nat; [reflexivity |].
  unfold bind, try_catch, prisma_create, ret, throw. cbn [net db db_log].
  destruct (store_create (db w) _) as [[c | | | |] | row]; reflexivity.
Qed.

(** What a finished call left in the world, whatever its outcome. *)
Lemma createPlaylist_sent (ctx : Ctx) (input : CreatePlaylistInput) (w : World)
      (created : RawPlaylist) :
  upstream NewPlaylist (map ex_request (net w)) (new_playlist_request ctx input)
  = inr created ->
  exists jsons : list (Json AddTracks),
    length jsons = length (add_tracks_configs ctx input (pl_id created))
    /\ new_exchanges w (snd (createPlaylist table upstream store_create ctx input w))
       = {| ex_endpoint := NewPlaylist;
            ex_request := new_playlist_request ctx input;
            ex_json := inr created |}
           :: map (exchange_of AddTracks)
                  (combine (add_tracks_configs ctx input (pl_id created)) jsons).
Proof.
  intros Hnew. destruct (@createPlaylist_run ctx input w created Hnew) as (jsons & Hlen & Hrun).
  exists jsons. split; [exact Hlen |]. cbv zeta in Hrun. rewrite Hrun.
  destruct (0 <? length (errors_of jsons))%nat;
    [| destruct (store_create (db w) _) as [e | row]];
    apply new_exchanges_app; reflexivity.
Qed.

(** C1: when the body of at least one add-tracks request carries an error,
    the call fails with an error whose cause is an aggregate of one error
    per failed batch, in order, the message of each being the status and
    the message that batch's body carried, as [status! message]; the message contains the URL of the playlist
    that was created; nothing is sent to the store; and after the creation
    only add-tracks requests were sent upstream, so the created playlist
    is left in place. *)
Theorem createPlaylist_partial_failure (ctx : Ctx) (input : CreatePlaylistInput)
        (w : World) :
  let run := createPlaylist table upstream store_create ctx input w in
  Exists (fun x => ex_endpoint x = AddTracks /\ ex_error x <> None)
         (new_exchanges w (snd run)) ->
  exists (created : RawPlaylist) (batches : list Exchange),
    new_exchanges w (snd run)
    = {| ex_endpoint := NewPlaylist;
         ex_request := new_playlist_request ctx input;
         ex_json := inr created |} :: batches
    /\ Forall (fun x => ex_endpoint x = AddTracks) batches
    /\ map ex_request batches = add_tracks_configs ctx input (pl_id created)
    /\ fst run
       = Throw (TRPCError
                  INTERNAL_SERVER_ERROR
                  (lit "Some tracks were not added to the playlist on Spotify. Visit "
                     ++ (lit "https://open.spotify.com/playlist/" ++ pl_id created)
                     ++ lit " to manually add the tracks.")
                  (Some (AggregateError
                           (map (fun e => show_int (status e) ++ lit "! " ++ message e)
                                (errors_in batches)))))
    /\ mentions (lit "Some tracks were not added to the playlist on Spotify. Visit "
                   ++ (lit "https://open.spotify.com/playlist/" ++ pl_id created)
                   ++ lit " to manually add the tracks.")
                (lit "https://open.spotify.com/playlist/" ++ pl_id created)
    /\ db (snd run) = db w
    /\ db_log (snd run) = db_log w.
Proof.
  cbv zeta. intros Hfailed.
  destruct (upstream NewPlaylist (map ex_request (net w))
                     (new_playlist_request ctx input)) as [e | created] eqn:Hnew.
  - exfalso. rewrite (@createPlaylist_refused ctx input w e Hnew) in Hfailed.
    added_exchanges_in Hfailed.
    inversion Hfailed as [x l [Hep _] | x l Hl]; subst; [discriminate | inversion Hl].
  - destruct (@createPlaylist_run ctx input w created Hnew) as (jsons & Hlen & Hrun).
    cbv zeta in Hrun.
    set (batches := map (exchange_of AddTracks)
                        (combine (add_tracks_configs ctx input (pl_id created)) jsons))
      in *.
    assert (Herrors : errors_in batches = errors_of jsons)
      by (apply errors_of_exchanges; exact Hlen).
    rewrite Hrun in Hfailed |- *.
    destruct (0 <? length (errors_of jsons))%nat eqn:Hsome.
    + cbn [fst snd net db db_log].
      exists created, batches.
      split; [apply new_exchanges_app; reflexivity |].
      split; [subst batches; apply Forall_forall; intros x Hx;
              apply in_map_iff in Hx; destruct Hx as (p & <- & _); reflexivity |].
      split; [apply requests_of_exchanges; exact Hlen |].
      split; [rewrite Herrors; reflexivity |].
      split; [apply mentions_middle |].
      split; reflexivity.
    + exfalso.
      assert (Hnone : Forall (fun x => ex_error x = None) batches).
      { apply errors_in_nil_iff. rewrite Herrors.
        destruct (errors_of jsons); [reflexivity | discriminate]. }
      assert (Hsent : Exists (fun x => ex_endpoint x = AddTracks /\ ex_error x <> None)
                             ({| ex_endpoint := NewPlaylist;
                                 ex_request := new_playlist_request ctx input;
                                 ex_json := inr created |} :: batches)).
      { destruct (store_create (db w) _) as [e | row];
          added_exchanges_in Hfailed; exact Hfailed. }
      inversion Hsent as [x l [Hep _] | x l Hl]; subst; [discriminate |].
      rewrite Exists_exists in Hl. destruct Hl as (x & Hx & _ & Herr).
      rewrite Forall_forall in Hnone. exact (Herr (Hnone x Hx)).
Qed.

(** The batch offsets are the multiples of 100 below the number of uris. *)
Lemma batch_offsets (n : nat) (p : Z) :
  In p (map (fun k => (100 * Z.of_nat k)%Z) (seq 0 (batches_of n)))
  <-> (0 <= p < Z.of_nat n /\ p mod 100 = 0)%Z.
Proof.
  unfold batches_of.
  pose proof (Nat.div_mod_eq (n + 99) 100) as Hdm.
  pose proof (Nat.mod_upper_bound (n + 99) 100 ltac:(lia)) as Hmod.
  rewrite in_map_iff. split.
  - intros (k & <- & Hk). apply in_seq in Hk.
    split; [lia |]. rewrite Z.mul_comm. apply Z_mod_mult.
  - intros [Hp Hm]. exists (Z.to_nat (p / 100)).
    pose proof (Z.div_mod p 100 ltac:(lia)) as Hpd. rewrite Hm in Hpd.
    split; [lia |]. apply in_seq. lia.
Qed.

Lemma add_tracks_configs_batches (ctx : Ctx) (input : CreatePlaylistInput)
      (playlistId : jsstring) :
  add_tracks_configs ctx input playlistId
  = map (fun k =>
           {| url := API_BASE_URL ++ lit "/playlists/" ++ playlistId ++ lit "/tracks";
              query := [];
              method := POST;
              headers := [bearer ctx; content_type_json];
              body := Some (AddTracksBody
                              (100 * Z.of_nat k)
                              (firstn 100 (skipn (100 * k) (uris input)))) |})
        (seq 0 (batches_of (length (uris input)))).
Proof.
  unfold add_tracks_configs, MAX_ITEMS_PER_REQUEST.
  rewrite range_batches, map_map. apply map_ext_in. intros k Hk.
  apply in_seq in Hk. unfold add_tracks_request, MAX_ITEMS_PER_REQUEST.
  assert (Hle : (100 * k <= length (uris input))%nat).
  { unfold batches_of in Hk.
    pose proof (Nat.div_mod_eq (length (uris input) + 99) 100).
    pose proof (Nat.mod_upper_bound (length (uris input) + 99) 100 ltac:(lia)).
    lia. }
  replace (100 * Z.of_nat k)%Z with (Z.of_nat (100 * k)) by lia.
  rewrite (slice_batch _ Hle). reflexivity.
Qed.

(** C2: once the playlist is created, the requests that follow are the
    add-tracks requests for the offsets 0, 100, 200, ..., one per multiple
    of 100 below the number of uris, in this order; the body of each holds
    its offset as [position] and the (up to) 100 uris from that offset on;
    the slices put together are the input; and 150 uris make two requests,
    at positions 0 and 100. *)
Theorem createPlaylist_batches (ctx : Ctx) (input : CreatePlaylistInput) (w : World)
        (created : RawPlaylist) :
  createPlaylist_input input = true ->
  upstream NewPlaylist (map ex_request (net w)) (new_playlist_request ctx input)
  = inr created ->
  let run := createPlaylist table upstream store_create ctx input w in
  let n := length (uris input) in
  let chunk := fun k : nat => firstn 100 (skipn (100 * k) (uris input)) in
  let request := fun k : nat =>
    {| url := API_BASE_URL ++ lit "/playlists/" ++ pl_id created ++ lit "/tracks";
       query := [];
       method := POST;
       headers := [bearer ctx; content_type_json];
       body := Some (AddTracksBody (100 * Z.of_nat k) (chunk k)) |} in
  map ex_request (skipn 1 (new_exchanges w (snd run)))
  = map request (seq 0 (batches_of n))
  /\ (1 <= batches_of n)%nat
  /\ (forall p : Z,
         In p (map (fun k => (100 * Z.of_nat k)%Z) (seq 0 (batches_of n)))
         <-> (0 <= p < Z.of_nat n /\ p mod 100 = 0)%Z)
  /\ concat (map chunk (seq 0 (batches_of n))) = uris input
  /\ (n = 150%nat ->
      map ex_request (skipn 1 (new_exchanges w (snd run))) = [request 0%nat; request 1%nat]).
Proof.
  intros Hn Hnew. cbv zeta.
  unfold createPlaylist_input in Hn. apply Nat.leb_le in Hn.
  destruct (@createPlaylist_sent ctx input w created Hnew) as (jsons & Hlen & Hsent).
  assert (Hreqs : map ex_request
                      (skipn 1 (new_exchanges w
                                  (snd (createPlaylist table upstream store_create
                                                       ctx input w))))
                  = add_tracks_configs ctx input (pl_id created)).
  { rewrite Hsent. cbn [skipn]. apply requests_of_exchanges. exact Hlen. }
  rewrite Hreqs, add_tracks_configs_batches.
  split; [reflexivity |].
  split.
  { unfold batches_of.
    apply (Nat.div_le_lower_bound (length (uris input) + 99) 100 1); lia. }
  split; [intros p; apply batch_offsets |].
  split.
  { rewrite (concat_chunks 100 (batches_of (length (uris input))) (uris input)).
    apply firstn_all2. unfold batches_of.
    pose proof (Nat.div_mod_eq (length (uris input) + 99) 100).
    pose proof (Nat.mod_upper_bound (length (uris input) + 99) 100 ltac:(lia)).
    lia. }
  intros H150. rewrite H150. reflexivity.
Qed.

(** C6: when the playlist is created, no add-tracks body carries an error
    and the store throws on [create], the outcome depends on the class of
    what was thrown.  A [PrismaClientKnownRequestError] (the class of the
    store's constraint conflicts) is surfaced: the call fails with a
    message that says the playlist is available at its URL.  Anything else
    is swallowed: the call returns the name and the URL of the playlist.
    In both cases the table is left as it was. *)
Theorem createPlaylist_persistence_failure
        (ctx : Ctx) (input : CreatePlaylistInput) (w : World)
        (created : RawPlaylist) (e : PrismaError) :
  let run := createPlaylist table upstream store_create ctx input w in
  let playlistUrl := lit "https://open.spotify.com/playlist/" ++ pl_id created in
  upstream NewPlaylist (map ex_request (net w)) (new_playlist_request ctx input)
  = inr created ->
  Forall (fun x => ex_error x = None) (new_exchanges w (snd run)) ->
  store_create (db w) {| data_spotifyId := pl_id created;
                         data_createdBy := user_id ctx |} = inl e ->
  fst run
  = match e with
    | PrismaClientKnownRequestError _ =>
        Throw (TRPCError INTERNAL_SERVER_ERROR
                         (unable_to_save (cp_name input) playlistUrl)
                         (Some (PrismaCause e)))
    | _ => Ok {| out_name := cp_name input; out_url := playlistUrl |}
    end
  /\ mentions (unable_to_save (cp_name input) playlistUrl)
              (lit "it's available at " ++ playlistUrl)
  /\ db (snd run) = db w.
Proof.
  cbv zeta. intros Hnew Hclean Hstore.
  destruct (@createPlaylist_run ctx input w created Hnew) as (jsons & Hlen & Hrun).
  cbv zeta in Hrun. rewrite Hrun in Hclean |- *.
  destruct (0 <? length (errors_of jsons))%nat eqn:Hsome.
  - exfalso. added_exchanges_in Hclean.
    inversion Hclean as [| x l _ Hbatches]; subst.
    apply errors_in_nil_iff in Hbatches.
    unfold errors_in in Hbatches. rewrite errors_of_exchanges in Hbatches by exact Hlen.
    rewrite Hbatches in Hsome. discriminate.
  - rewrite Hstore. cbn [fst snd db].
    split; [reflexivity |]. split; [| reflexivity].
    unfold unable_to_save.
    exists (lit "Unable to save playlist " ++ cp_name input
              ++ lit " to the database, but the "), (lit ".").
    rewrite <- !app_assoc. reflexivity.
Qed.

End CreatePlaylistFacts.

(** 150 tracks, the second batch refused. *)
Lemma createPlaylist_partial_failure_witness :
  let run := createPlaylist Demo.no_table Demo.second_batch_fails Demo.create_ok
                            Demo.ctx (Demo.mixtape 150) Demo.empty_world in
  exists (created : RawPlaylist) (batches : list Exchange),
    new_exchanges Demo.empty_world (snd run)
    = {| ex_endpoint := NewPlaylist;
         ex_request := new_playlist_request Demo.ctx (Demo.mixtape 150);
         ex_json := inr created |} :: batches
    /\ Forall (fun x => ex_endpoint x = AddTracks) batches
    /\ map ex_request batches
       = add_tracks_configs Demo.ctx (Demo.mixtape 150) (pl_id created)
    /\ fst run
       = Throw (TRPCError
                  INTERNAL_SERVER_ERROR
                  (lit "Some tracks were not added to the playlist on Spotify. Visit "
                     ++ (lit "https://open.spotify.com/playlist/" ++ pl_id created)
                     ++ lit " to manually add the tracks.")
                  (Some (AggregateError
                           (map (fun e => show_int (status e) ++ lit "! " ++ message e)
                                (errors_in batches)))))
    /\ mentions (lit "Some tracks were not added to the playlist on Spotify. Visit "
                   ++ (lit "https://open.spotify.com/playlist/" ++ pl_id created)
                   ++ lit " to manually add the tracks.")
                (lit "https://open.spotify.com/playlist/" ++ pl_id created)
    /\ db (snd run) = db Demo.empty_world
    /\ db_log (snd run) = db_log Demo.empty_world.
Proof.
  apply (createPlaylist_partial_failure
           Demo.no_table Demo.second_batch_fails Demo.create_ok
           Demo.ctx (Demo.mixtape 150) Demo.empty_world).
  vm_compute.
  apply Exists_cons_tl, Exists_cons_tl, Exists_cons_hd.
  split; [reflexivity | discriminate].
Defined.

(** The failure of that run names the one refused batch. *)
Example createPlaylist_partial_failure_run :
  fst (createPlaylist Demo.no_table Demo.second_batch_fails Demo.create_ok
                      Demo.ctx (Demo.mixtape 150) Demo.empty_world)
  = Throw (TRPCError
             INTERNAL_SERVER_ERROR
             (lit "Some tracks were not added to the playlist on Spotify. Visit https://open.spotify.com/playlist/p to manually add the tracks.")
             (Some (AggregateError [lit "429! slow down"]))).
Proof. vm_compute. reflexivity. Qed.

Lemma createPlaylist_batches_witness :
  let input := Demo.mixtape 150 in
  let run := createPlaylist Demo.no_table Demo.healthy Demo.create_ok
                            Demo.ctx input Demo.empty_world in
  let n := length (uris input) in
  let chunk := fun k : nat => firstn 100 (skipn (100 * k) (uris input)) in
  let request := fun k : nat =>
    {| url := API_BASE_URL ++ lit "/playlists/" ++ lit "p" ++ lit "/tracks";
       query := [];
       method := POST;
       headers := [bearer Demo.ctx; content_type_json];
       body := Some (AddTracksBody (100 * Z.of_nat k) (chunk k)) |} in
  map ex_request (skipn 1 (new_exchanges Demo.empty_world (snd run)))
  = map request (seq 0 (batches_of n))
  /\ (1 <= batches_of n)%nat
  /\ (forall p : Z,
         In p (map (fun k => (100 * Z.of_nat k)%Z) (seq 0 (batches_of n)))
         <-> (0 <= p < Z.of_nat n /\ p mod 100 = 0)%Z)
  /\ concat (map chunk (seq 0 (batches_of n))) = uris input
  /\ (n = 150%nat ->
      map ex_request (skipn 1 (new_exchanges Demo.empty_world (snd run)))
      = [request 0%nat; request 1%nat]).
Proof.
  apply (@createPlaylist_batches
           Demo.no_table Demo.healthy Demo.create_ok
           Demo.ctx (Demo.mixtape 150) Demo.empty_world (Demo.playlist (lit "p"))).
  - reflexivity.
  - reflexivity.
Defined.

(** The bodies of the two requests of that run. *)
Example createPlaylist_batches_run :
  map (fun x => body (ex_request x))
      (skipn 1 (net (snd (createPlaylist Demo.no_table Demo.healthy Demo.create_ok
                                         Demo.ctx (Demo.mixtape 150)
                                         Demo.empty_world))))
  = [ Some (AddTracksBody 0 (firstn 100 (uris (Demo.mixtape 150))));
      Some (AddTracksBody 100 (skipn 100 (uris (Demo.mixtape 150)))) ].
Proof. vm_compute. reflexivity. Qed.

(** A store that does not answer (swallowed), on a healthy upstream. *)
Lemma createPlaylist_persistence_failure_witness :
  let input := Demo.mixtape 3 in
  let run := createPlaylist Demo.no_table Demo.healthy
                            (Demo.create_fails PrismaClientInitializationError)
                            Demo.ctx input Demo.empty_world in
  let playlistUrl := lit "https://open.spotify.com/playlist/" ++ lit "p" in
  fst run = Ok {| out_name := cp_name input; out_url := playlistUrl |}
  /\ mentions (unable_to_save (cp_name input) playlistUrl)
              (lit "it's available at " ++ playlistUrl)
  /\ db (snd run) = db Demo.empty_world.
Proof.
  apply (@createPlaylist_persistence_failure
           Demo.no_table Demo.healthy
           (Demo.create_fails PrismaClientInitializationError)
           Demo.ctx (Demo.mixtape 3) Demo.empty_world (Demo.playlist (lit "p"))
           PrismaClientInitializationError).
  - reflexivity.
  - vm_compute. repeat constructor.
  - reflexivity.
Defined.

(** The same call on a store that reports a unique-constraint violation. *)
Example createPlaylist_conflict_run :
  fst (createPlaylist Demo.no_table Demo.healthy
                      (Demo.create_fails (PrismaClientKnownRequestError (lit "P2002")))
                      Demo.ctx (Demo.mixtape 3) Demo.empty_world)
  = Throw (TRPCError
             INTERNAL_SERVER_ERROR
             (lit "Unable to save playlist mixtape to the database, but the it's available at https://open.spotify.com/playlist/p.")
             (Some (PrismaCause (PrismaClientKnownRequestError (lit "P2002"))))).
Proof. vm_compute. reflexivity. Qed.

(* ------------------------------------------------------------------ *)
(** ** getPlaylists *)

Lemma for_each_length {A B} (f : A -> Async B) (l : list A) :
  forall w ys w', for_each f l w = (Ok ys, w') -> length ys = length l.
Proof.
  induction l as [| x l IH]; intros w ys w' H; simpl in H.
  - inversion H. reflexivity.
  - unfold bind at 1 in H. destruct (f x w) as [[y | e] w1]; [| discriminate].
    unfold bind at 1 in H.
    destruct (for_each f l w1) as [[ys' | e] w2] eqn:Hl; [| discriminate].
    inversion H; subst. simpl. f_equal. eapply IH; eauto.
Qed.

(** Every value a traversal returned was returned by one of its steps. *)
Lemma for_each_all {A B} (Q : B -> Prop) (f : A -> Async B) (l : list A) :
  (forall x w y w', f x w = (Ok y, w') -> Q y) ->
  forall w ys w', for_each f l w = (Ok ys, w') -> Forall Q ys.
Proof.
  intros Hf. induction l as [| x l IH]; intros w ys w' H; simpl in H.
  - inversion H. constructor.
  - unfold bind at 1 in H. destruct (f x w) as [[y | e] w1] eqn:Hx; [| discriminate].
    unfold bind at 1 in H.
    destruct (for_each f l w1) as [[ys' | e] w2] eqn:Hl; [| discriminate].
    inversion H; subst. constructor; eauto.
Qed.

(** A traversal whose steps all return returns. *)
Lemma for_each_returns {A B} (f : A -> Async B) (l : list A) :
  (forall x w, In x l -> exists y w', f x w = (Ok y, w')) ->
  forall w, exists ys w', for_each f l w = (Ok ys, w').
Proof.
  induction l as [| x l IH]; intros Hf w; simpl.
  - eexists _, _. reflexivity.
  - destruct (Hf x w (or_introl eq_refl)) as (y & w1 & Hx).
    unfold bind at 1. rewrite Hx.
    destruct (IH (fun x' w0 Hin => Hf x' w0 (or_intror Hin)) w1) as (ys & w2 & Hl).
    unfold bind at 1. rewrite Hl. eexists _, _. reflexivity.
Qed.

Lemma pop_snoc {A} (l : list A) (x : A) : pop (l ++ [x]) = Some (x, l).
Proof. unfold pop. rewrite rev_app_distr. simpl. rewrite rev_involutive. reflexivity. Qed.

(** The page and the cursor, for a store that answers with at most
    [limit + 1] rows: the page is the first [limit] rows of the answer and
    the cursor the id of the row after them, if there is one. *)
Lemma split_page_spec (limit : Z) (found : list PlaylistRow) :
  (0 <= limit)%Z ->
  (Z.of_nat (length found) <= limit + 1)%Z ->
  split_page limit found
  = Ok (firstn (Z.to_nat limit) found,
        option_map row_id (nth_error found (Z.to_nat limit))).
Proof.
  intros Hlimit Htake. unfold split_page.
  destruct (Z.gtb_spec (Z.of_nat (length found)) limit) as [Hgt | Hle].
  - assert (Hlen : length found = S (Z.to_nat limit)) by lia.
    destruct (@exists_last _ found) as (page & nextItem & ->).
    { intros ->. discriminate. }
    rewrite length_app in Hlen. simpl in Hlen.
    rewrite pop_snoc.
    rewrite firstn_app, firstn_all2 by lia.
    replace (Z.to_nat limit - length page)%nat with 0%nat by lia.
    rewrite nth_error_app2 by lia.
    replace (Z.to_nat limit - length page)%nat with 0%nat by lia.
    simpl. rewrite app_nil_r. reflexivity.
  - rewrite firstn_all2 by lia.
    replace (nth_error found (Z.to_nat limit)) with (@None PlaylistRow);
      [reflexivity |].
    symmetry. apply nth_error_None. lia.
Qed.

Section PlaylistsFacts.

Variable upstream : forall ep : Endpoint, list Request -> Request -> Json ep.
Variable store_count : list PlaylistRow -> option jsstring -> Z.
Variable store_findMany : list PlaylistRow -> FindManyArgs -> list PlaylistRow.

Lemma playlist_audio_features_extends (ctx : Ctx) (playlist : Json GetPlaylist)
      (w : World) :
  extends (fun x => ex_endpoint x = AudioFeaturesLookup) w
          (snd (playlist_audio_features upstream ctx playlist w)).
Proof.
  destruct playlist as [e | p]; simpl.
  - apply extends_refl.
  - unfold sequentialFetch. apply for_each_extends. intros req w0.
    apply fetch_extends.
Qed.

(** The two queries are sent to the store whatever happens next. *)
Lemma getPlaylists_queries (ctx : Ctx) (input : PlaylistsInput) (w : World) :
  let w' := snd (getPlaylists_resolve upstream store_count store_findMany ctx input w) in
  db_log w' = db_log w ++ [Count (creator_filter ctx input);
                           FindMany (page_query ctx input)]
  /\ db w' = db w.
Proof.
  cbv zeta. unfold getPlaylists_resolve.
  cbv [bind prisma_count prisma_findMany lift ret]. cbn [db net db_log].
  fold (page_query ctx input).
  set (w2 := {| net := net w; db := db w;
                db_log := (db_log w ++ [Count (creator_filter ctx input)])
                            ++ [FindMany (page_query ctx input)] |}).
  assert (Hgoal : forall w3, extends (fun _ => True) w2 w3 ->
                             db_log w3 = db_log w ++ [Count (creator_filter ctx input);
                                                      FindMany (page_query ctx input)]
                             /\ db w3 = db w).
  { intros w3 (Hd & Hl & _). rewrite Hd, Hl. subst w2. cbn [db db_log].
    rewrite <- app_assoc. split; reflexivity. }
  apply Hgoal.
  match goal with
  | |- context [split_page ?l ?found] =>
      destruct (split_page l found) as [[page nc] | e]
  end; [| apply extends_refl].
  match goal with
  | |- context [for_each ?f page w2] =>
      pose proof (@for_each_extends _ _ (fun _ => True) f page
                    (fun x w0 => @extends_weaken _ (fun _ => True) _ _ (fun _ _ => I)
                                   (fetch_extends upstream GetPlaylist _ w0)) w2) as H1;
      destruct (for_each f page w2) as [[spotifyPlaylists | e] w3]
  end; [| exact H1].
  pose proof (@for_each_extends _ _ (fun _ => True)
                (playlist_audio_features upstream ctx) spotifyPlaylists
                (fun x w0 => @extends_weaken _ (fun _ => True) _ _ (fun _ _ => I)
                               (playlist_audio_features_extends ctx x w0)) w3) as H2.
  destruct (for_each _ spotifyPlaylists w3) as [[audioFeatures | e] w4];
    [| eapply extends_trans; eauto].
  assert (H4 : extends (fun _ => True) w2 w4) by (eapply extends_trans; eauto).
  destruct (mapi _ audioFeatures) as [averages | e]; [| exact H4].
  destruct (mapi _ (combine _ _)) as [playlists | e]; exact H4.
Qed.

(** What a call that returned has done: it took its page and cursor from
    [split_page], asked upstream for the playlists of the page, in order,
    and then only for audio features. *)
Lemma getPlaylists_ok (ctx : Ctx) (input : PlaylistsInput) (w : World)
      (r : PlaylistsOutput) :
  let run := getPlaylists_resolve upstream store_count store_findMany ctx input w in
  fst run = Ok r ->
  exists page : list PlaylistRow,
    split_page (coalesce (limit input) 50%Z)
               (store_findMany (db w) (page_query ctx input))
    = Ok (page, nextCursor r)
    /\ total r = store_count (db w) (creator_filter ctx input)
    /\ length (items r) = length page
    /\ exists (jsons : list (Json GetPlaylist)) (rest : list Exchange),
        length jsons = length page
        /\ new_exchanges w (snd run)
           = map (exchange_of GetPlaylist)
                 (combine (map (fun row => playlist_request ctx (spotifyId row)) page)
                          jsons)
               ++ rest
        /\ Forall (fun x => ex_endpoint x = AudioFeaturesLookup) rest.
Proof.
  cbv zeta. unfold getPlaylists_resolve.
  cbv [bind prisma_count prisma_findMany lift ret]. cbn [db net db_log].
  fold (page_query ctx input).
  destruct (split_page _ (store_findMany (db w) (page_query ctx input)))
    as [[page nc] | e]; [| discriminate].
  rewrite (for_each_map (fun row => playlist_request ctx (spotifyId row))
                        (fetch upstream GetPlaylist) page).
  match goal with
  | |- context [for_each (fetch upstream GetPlaylist) ?configs ?w2] =>
      destruct (sequentialFetch_run upstream GetPlaylist configs w2)
        as (jsons & Hlen & Hrun);
      unfold sequentialFetch in Hrun; rewrite Hrun
  end.
  rewrite length_map in Hlen. cbn [net db db_log].
  match goal with
  | |- context [for_each (playlist_audio_features upstream ctx) jsons ?w3] =>
      pose proof (@for_each_extends _ _ _ (playlist_audio_features upstream ctx) jsons
                    (playlist_audio_features_extends ctx) w3)
        as (_ & _ & rest & Hnet & Hrest);
      pose proof (@for_each_length _ _ (playlist_audio_features upstream ctx) jsons w3)
        as Hlen2;
      destruct (for_each (playlist_audio_features upstream ctx) jsons w3)
        as [[audioFeatures | e] w4]
  end; [| discriminate].
  specialize (Hlen2 _ _ eq_refl). cbn [snd net] in Hnet.
  destruct (mapi average_of_playlist audioFeatures) as [averages | e] eqn:Havg;
    [| discriminate].
  destruct (mapi _ (combine jsons averages)) as [playlists | e] eqn:Hpl;
    [| discriminate].
  cbn [fst snd]. intros Hr. inversion Hr; subst r; clear Hr. cbn [items total nextCursor].
  exists page. split; [reflexivity |]. split; [reflexivity |].
  split.
  { destruct (mapi_from_ok _ _ _ Havg) as [Hl1 _].
    destruct (mapi_from_ok _ _ _ Hpl) as [Hl2 _].
    rewrite Hl2, length_combine. lia. }
  exists jsons, rest. split; [exact Hlen |]. split; [| exact Hrest].
  apply new_exchanges_app. rewrite Hnet, app_assoc. reflexivity.
Qed.

Lemma average_of_playlist_returns (l : list (Json AudioFeaturesLookup)) (i : nat) :
  Forall (fun json => match json with
                      | inr audio_features =>
                          Forall (fun entry => entry <> None) audio_features
                      | inl _ => True
                      end) l ->
  exists average, average_of_playlist l i = Ok average.
Proof.
  intros Hl. unfold average_of_playlist.
  assert (Hflat : Forall (fun entry => entry <> None) (flat_audio_features l)).
  { unfold flat_audio_features. induction Hl as [| json l Hjson _ IH]; simpl.
    - constructor.
    - apply Forall_app. split; [| exact IH].
      destruct json as [e | audio_features];
        [repeat constructor; discriminate | exact Hjson]. }
  destruct (@mapi_from_returns _ _ percent_features (flat_audio_features l) 0)
    as [features Hfeatures].
  - intros k entry Hk. rewrite Forall_forall in Hflat.
    specialize (Hflat entry (nth_error_In _ _ Hk)).
    destruct entry as [t |]; [| congruence]. eexists. reflexivity.
  - unfold mapi. rewrite Hfeatures. eexists. reflexivity.
Qed.

(** On a well-formed upstream the call returns, for any page. *)
Lemma getPlaylists_returns (ctx : Ctx) (input : PlaylistsInput) (w : World) :
  answers_playlists upstream -> answers_audio_features upstream ->
  (exists page, split_page (coalesce (limit input) 50%Z)
                           (store_findMany (db w) (page_query ctx input)) = Ok page) ->
  exists r, fst (getPlaylists_resolve upstream store_count store_findMany ctx input w) = Ok r.
Proof.
  intros Hplaylists Hfeatures [[page nc] Hpage]. unfold getPlaylists_resolve.
  cbv [bind prisma_count prisma_findMany lift ret]. cbn [db net db_log].
  fold (page_query ctx input). rewrite Hpage.
  match goal with
  | |- context [for_each ?f page ?w2] =>
      destruct (@for_each_returns _ _ f page) with (w := w2)
        as (spotifyPlaylists & w3 & Hrun1);
      [ intros row w0 _; eexists _, _; reflexivity | ];
      pose proof (@for_each_all _ _ (fun json => exists p, json = inr p) f page) as Hall1;
      rewrite Hrun1
  end.
  assert (Hinr : Forall (fun json : Json GetPlaylist => exists p, json = inr p)
                        spotifyPlaylists).
  { eapply Hall1; [| exact Hrun1]. intros row w0 y w0' Hy.
    unfold fetch in Hy. inversion Hy. apply Hplaylists. }
  clear Hall1.
  destruct (@for_each_returns _ _ (playlist_audio_features upstream ctx) spotifyPlaylists)
    with (w := w3) as (audioFeatures & w4 & Hrun2).
  { intros json w0 Hin. rewrite Forall_forall in Hinr.
    destruct (Hinr json Hin) as [p ->]. simpl.
    destruct (sequentialFetch_run upstream AudioFeaturesLookup
                (map (fun index =>
                        audio_features_request ctx
                          (slice (pl_track_ids p) index (index + MAX_ITEMS_PER_REQUEST)))
                     (range 0 (Z.of_nat (length (pl_track_ids p)) - 1)
                            MAX_ITEMS_PER_REQUEST)) w0)
      as (jsons & _ & Hseq).
    eexists _, _. exact Hseq. }
  rewrite Hrun2.
  assert (Hwell : Forall (fun l : list (Json AudioFeaturesLookup) =>
                            Forall (fun json => match json with
                                                | inr audio_features =>
                                                    Forall (fun entry => entry <> None)
                                                           audio_features
                                                | inl _ => True
                                                end) l) audioFeatures).
  { eapply for_each_all; [| exact Hrun2].
    intros [e | p] w0 l w0' Hl; simpl in Hl; [discriminate |].
    unfold sequentialFetch in Hl. eapply for_each_all; [| exact Hl].
    intros req w1 json w1' Hjson. unfold fetch in Hjson. inversion Hjson.
    destruct (upstream AudioFeaturesLookup _ req) as [e | audio_features] eqn:Hup;
      [exact I | eapply Hfeatures; exact Hup]. }
  destruct (@mapi_from_returns _ _ average_of_playlist audioFeatures 0)
    as [averages Havg].
  { intros k l Hk. apply average_of_playlist_returns.
    rewrite Forall_forall in Hwell. apply Hwell. eapply nth_error_In; eauto. }
  unfold mapi at 1. rewrite Havg.
  destruct (@mapi_from_returns _ _
              (fun (pa : Json GetPlaylist * AudioFeatures) (_ : nat) =>
                 playlist_of (fst pa) (snd pa))
              (combine spotifyPlaylists averages) 0) as [playlists Hpl].
  { intros k [json average] Hk. apply nth_error_In, in_combine_l in Hk.
    rewrite Forall_forall in Hinr. destruct (Hinr json Hk) as [p ->].
    eexists. reflexivity. }
  unfold mapi. rewrite Hpl. eexists. reflexivity.
Qed.

(** The procedure is its resolver followed by the output schema: the
    world is the resolver's, an exception of the resolver passes through,
    and a value is returned when it passes the schema. *)
Lemma getPlaylists_procedure (ctx : Ctx) (input : PlaylistsInput) (w : World) :
  getPlaylists upstream store_count store_findMany ctx input w
  = (match fst (getPlaylists_resolve upstream store_count store_findMany ctx input w)
     with
     | Ok r =>
         if getPlaylists_output r then Ok r
         else Throw (TRPCError INTERNAL_SERVER_ERROR (lit "Output validation failed")
                               (Some ZodError))
     | Throw e => Throw e
     end,
     snd (getPlaylists_resolve upstream store_count store_findMany ctx input w)).
Proof.
  unfold getPlaylists, bind.
  destruct (getPlaylists_resolve upstream store_count store_findMany ctx input w)
    as [[r | e] w']; [| reflexivity].
  cbn [fst snd]. destruct (getPlaylists_output r); reflexivity.
Qed.

Lemma getPlaylists_world (ctx : Ctx) (input : PlaylistsInput) (w : World) :
  snd (getPlaylists upstream store_count store_findMany ctx input w)
  = snd (getPlaylists_resolve upstream store_count store_findMany ctx input w).
Proof. rewrite getPlaylists_procedure. reflexivity. Qed.

Lemma getPlaylists_returned (ctx : Ctx) (input : PlaylistsInput) (w : World)
      (r : PlaylistsOutput) :
  fst (getPlaylists upstream store_count store_findMany ctx input w) = Ok r ->
  fst (getPlaylists_resolve upstream store_count store_findMany ctx input w) = Ok r
  /\ getPlaylists_output r = true.
Proof.
  rewrite getPlaylists_procedure. cbn [fst].
  destruct (fst (getPlaylists_resolve upstream store_count store_findMany ctx input w))
    as [r0 | e]; [| discriminate].
  destruct (getPlaylists_output r0) eqn:Hout; [| discriminate].
  intros H. inversion H; subst. split; [reflexivity | exact Hout].
Qed.

Lemma getPlaylists_passes (ctx : Ctx) (input : PlaylistsInput) (w : World)
      (r : PlaylistsOutput) :
  fst (getPlaylists_resolve upstream store_count store_findMany ctx input w) = Ok r ->
  getPlaylists_output r = true ->
  fst (getPlaylists upstream store_count store_findMany ctx input w) = Ok r.
Proof.
  intros Hr Hout. rewrite getPlaylists_procedure. cbn [fst]. rewrite Hr, Hout.
  reflexivity.
Qed.

Lemma getPlaylists_throws (ctx : Ctx) (input : PlaylistsInput) (w : World) (e : Exn) :
  fst (getPlaylists_resolve upstream store_count store_findMany ctx input w) = Throw e ->
  fst (getPlaylists upstream store_count store_findMany ctx input w) = Throw e.
Proof.
  intros Hr. rewrite getPlaylists_procedure. cbn [fst]. rewrite Hr. reflexivity.
Qed.

(** C3: a call with limit [L] asks the store for [L + 1] rows.  When the
    store answers with [L + 1] rows, the call that returns has a page of
    [L] items and the id of the last row of the answer as [nextCursor];
    when it answers with [L] rows or fewer, the page has as many items as
    the answer and [nextCursor] is absent.  In both cases the playlists
    requested upstream are those of the first [L] rows, in order, so the
    extra row is not part of the page; and when upstream answers its
    lookups the resolver returns a page, which the call returns when it
    passes the output schema. *)
Theorem getPlaylists_pagination (ctx : Ctx) (input : PlaylistsInput) (w : World) :
  let L := coalesce (limit input) 50%Z in
  let found := store_findMany (db w) (page_query ctx input) in
  let run := getPlaylists upstream store_count store_findMany ctx input w in
  getPlaylists_input input = true ->
  (Z.of_nat (length found) <= take (page_query ctx input))%Z ->
  (take (page_query ctx input) = L + 1
   /\ db_log (snd run) = db_log w ++ [Count (creator_filter ctx input);
                                      FindMany (page_query ctx input)])%Z
  /\ (forall r : PlaylistsOutput,
         fst run = Ok r ->
         (Z.of_nat (length found) = L + 1 ->
          length (items r) = Z.to_nat L
          /\ exists page extra,
              found = page ++ [extra] /\ nextCursor r = Some (row_id extra))%Z
         /\ (Z.of_nat (length found) <= L ->
             length (items r) = length found /\ nextCursor r = None)%Z
         /\ exists playlists rest,
             new_exchanges w (snd run) = playlists ++ rest
             /\ map ex_request playlists
                = map (fun row => playlist_request ctx (spotifyId row))
                      (firstn (Z.to_nat L) found)
             /\ Forall (fun x => ex_endpoint x = AudioFeaturesLookup) rest)
  /\ (answers_playlists upstream -> answers_audio_features upstream ->
      exists r,
        fst (getPlaylists_resolve upstream store_count store_findMany ctx input w)
        = Ok r
        /\ (getPlaylists_output r = true -> fst run = Ok r)).
Proof.
  cbv zeta. intros Hinput Htake.
  assert (HL : (0 <= coalesce (limit input) 50)%Z).
  { unfold getPlaylists_input in Hinput. destruct (limit input); simpl; lia. }
  cbn [take page_query] in Htake.
  pose proof (split_page_spec _ HL Htake) as Hsplit.
  rewrite getPlaylists_world.
  split; [split; [reflexivity | apply getPlaylists_queries] |].
  split.
  - intros r Hr. apply getPlaylists_returned in Hr. destruct Hr as [Hr _].
    destruct (@getPlaylists_ok ctx input w r Hr)
      as (page & Hpage & _ & Hitems & jsons & rest & Hlen & Hnew & Hrest).
    rewrite Hsplit in Hpage. inversion Hpage as [[Hp Hc]]. clear Hpage.
    rewrite Hitems, <- Hp.
    split; [| split].
    + intros Hfull. split; [rewrite length_firstn; lia |].
      destruct (@exists_last _ (store_findMany (db w) (page_query ctx input)))
        as (init & extra & Hfound).
      { intros Hnil. rewrite Hnil in Hfull. simpl in Hfull. lia. }
      exists init, extra. split; [exact Hfound |].
      rewrite Hfound in Hfull |- *. rewrite length_app in Hfull. simpl in Hfull.
      rewrite nth_error_app2 by lia.
      replace (Z.to_nat (coalesce (limit input) 50%Z) - length init)%nat
        with 0%nat by lia.
      reflexivity.
    + intros Hshort. split; [rewrite length_firstn; lia |].
      replace (nth_error _ _) with (@None PlaylistRow); [reflexivity |].
      symmetry. apply nth_error_None. lia.
    + eexists _, rest. split; [exact Hnew |]. split; [| exact Hrest].
      rewrite Hp. apply requests_of_exchanges. rewrite length_map. exact Hlen.
  - intros Hplaylists Hfeatures.
    destruct (@getPlaylists_returns ctx input w Hplaylists Hfeatures) as [r Hr].
    + eexists. exact Hsplit.
    + exists r. split; [exact Hr | apply getPlaylists_passes; exact Hr].
Qed.

(** C10: a call whose [limit] is missing ([undefined] or [null]) passes the
    input schema, although the schema bounds a given limit to 1..100, and
    runs exactly as the call with limit 50: the store is asked for 51 rows
    and the page and cursor are those of [split_page] at 50. *)
Theorem getPlaylists_default_limit (ctx : Ctx) (input : PlaylistsInput) (w : World) :
  limit input = Undefined \/ limit input = Null ->
  let run := getPlaylists upstream store_count store_findMany ctx input w in
  let query := {| take := 51;
                  fm_cursor := cursor_arg input;
                  orderBy_createdAt := desc;
                  fm_where := creator_filter ctx input |} in
  getPlaylists_input input = true
  /\ run = getPlaylists upstream store_count store_findMany ctx
                        {| limit := Val 50%Z;
                           cursor := cursor input;
                           isCreatorOnly := isCreatorOnly input |} w
  /\ db_log (snd run) = db_log w ++ [Count (creator_filter ctx input); FindMany query]
  /\ (forall r : PlaylistsOutput,
         fst run = Ok r ->
         exists page,
           split_page 50 (store_findMany (db w) query) = Ok (page, nextCursor r)
           /\ length (items r) = length page).
Proof.
  intros Hmissing. cbv zeta.
  assert (Hdefault : coalesce (limit input) 50%Z = 50%Z)
    by (destruct Hmissing as [-> | ->]; reflexivity).
  split; [unfold getPlaylists_input; destruct Hmissing as [-> | ->]; reflexivity |].
  split; [unfold getPlaylists, getPlaylists_resolve; rewrite Hdefault; reflexivity |].
  rewrite getPlaylists_world.
  split.
  - destruct (getPlaylists_queries ctx input w) as [Hlog _].
    rewrite Hlog. unfold page_query. rewrite Hdefault. reflexivity.
  - intros r Hr. apply getPlaylists_returned in Hr. destruct Hr as [Hr _].
    destruct (@getPlaylists_ok ctx input w r Hr) as (page & Hpage & _ & Hitems & _).
    unfold page_query in Hpage. rewrite Hdefault in Hpage.
    exists page. split; [exact Hpage | exact Hitems].
Qed.

End PlaylistsFacts.

(** Limit 20 on a table of 21 rows. *)
Lemma getPlaylists_pagination_witness :
  let ctx := Demo.ctx in
  let input := Demo.first_page (Val 20%Z) in
  let w := Demo.table 21 in
  let L := 20%Z in
  let found := Demo.findMany (db w) (page_query ctx input) in
  let run := getPlaylists Demo.healthy Demo.count Demo.findMany ctx input w in
  (take (page_query ctx input) = L + 1
   /\ db_log (snd run) = db_log w ++ [Count (creator_filter ctx input);
                                      FindMany (page_query ctx input)])%Z
  /\ (forall r : PlaylistsOutput,
         fst run = Ok r ->
         (Z.of_nat (length found) = L + 1 ->
          length (items r) = Z.to_nat L
          /\ exists page extra,
              found = page ++ [extra] /\ nextCursor r = Some (row_id extra))%Z
         /\ (Z.of_nat (length found) <= L ->
             length (items r) = length found /\ nextCursor r = None)%Z
         /\ exists playlists rest,
             new_exchanges w (snd run) = playlists ++ rest
             /\ map ex_request playlists
                = map (fun row => playlist_request ctx (spotifyId row))
                      (firstn (Z.to_nat L) found)
             /\ Forall (fun x => ex_endpoint x = AudioFeaturesLookup) rest)
  /\ (answers_playlists Demo.healthy -> answers_audio_features Demo.healthy ->
      exists r,
        fst (getPlaylists_resolve Demo.healthy Demo.count Demo.findMany ctx input w)
        = Ok r
        /\ (getPlaylists_output r = true -> fst run = Ok r)).
Proof.
  apply (getPlaylists_pagination Demo.healthy Demo.count Demo.findMany
                                 Demo.ctx (Demo.first_page (Val 20%Z)) (Demo.table 21)).
  - reflexivity.
  - vm_compute. discriminate.
Defined.

(** With limit 20, a table of 21 rows gives 20 items and the id of the
    21st row as cursor; a table of 20 rows gives 20 items and no cursor. *)
Example getPlaylists_21_rows :
  exists r,
    fst (getPlaylists Demo.healthy Demo.count Demo.findMany Demo.ctx
                      (Demo.first_page (Val 20%Z)) (Demo.table 21)) = Ok r
    /\ length (items r) = 20%nat
    /\ nextCursor r = Some (row_id (Demo.row 21)).
Proof. eexists. split; [vm_compute; reflexivity | split; reflexivity]. Qed.

Example getPlaylists_20_rows :
  exists r,
    fst (getPlaylists Demo.healthy Demo.count Demo.findMany Demo.ctx
                      (Demo.first_page (Val 20%Z)) (Demo.table 20)) = Ok r
    /\ length (items r) = 20%nat
    /\ nextCursor r = None.
Proof. eexists. split; [vm_compute; reflexivity | split; reflexivity]. Qed.

(** A call without a limit on a table of 3 rows. *)
Lemma getPlaylists_default_limit_witness :
  let ctx := Demo.ctx in
  let input := Demo.first_page Undefined in
  let w := Demo.table 3 in
  let run := getPlaylists Demo.healthy Demo.count Demo.findMany ctx input w in
  let query := {| take := 51;
                  fm_cursor := cursor_arg input;
                  orderBy_createdAt := desc;
                  fm_where := creator_filter ctx input |} in
  getPlaylists_input input = true
  /\ run = getPlaylists Demo.healthy Demo.count Demo.findMany ctx
                        {| limit := Val 50%Z;
                           cursor := cursor input;
                           isCreatorOnly := isCreatorOnly input |} w
  /\ db_log (snd run) = db_log w ++ [Count (creator_filter ctx input); FindMany query]
  /\ (forall r : PlaylistsOutput,
         fst run = Ok r ->
         exists page,
           split_page 50 (Demo.findMany (db w) query) = Ok (page, nextCursor r)
           /\ length (items r) = length page).
Proof.
  apply (getPlaylists_default_limit Demo.healthy Demo.count Demo.findMany
                                    Demo.ctx (Demo.first_page Undefined) (Demo.table 3)).
  left. reflexivity.
Defined.

(* ------------------------------------------------------------------ *)
(** ** search: the outcomes of a query that is not blank *)

Lemma at_last_last_of {A} (l : list A) : at_last l = last_of l.
Proof.
  unfold at_last, last_of.
  destruct l as [| y l0]; [reflexivity |].
  destruct (@exists_last _ (y :: l0)) as (init & x & E); [discriminate |].
  rewrite E, rev_app_distr. simpl.
  destruct (init ++ [x]) as [| z t] eqn:E'; [destruct init; discriminate |].
  rewrite <- E', length_app. simpl.
  rewrite nth_error_app2 by lia.
  replace (length init + 1 - 1 - length init)%nat with 0%nat by lia.
  reflexivity.
Qed.

Section SearchOutcomes.

Variable table : Z -> option TRPC_ERROR_CODE_KEY.
Variable upstream : forall ep : Endpoint, list Request -> Request -> Json ep.

(** The run of a query that is not blank: one exchange, then a verdict on
    the body. *)
Lemma search_run (ctx : Ctx) (input : SearchInput) (w : World) :
  trim (q input) <> [] ->
  search table upstream ctx input w
  = let res := upstream Search (map ex_request (net w)) (search_request ctx input) in
    (match res with
     | inl e => Throw (upstream_error table e)
     | inr tracks_items =>
         if (length tracks_items =? 0)%nat
         then Throw (TRPCError NOT_FOUND (lit "No tracks found") None)
         else Ok (map (fun item => track_of item None) tracks_items)
     end,
     {| net := net w ++ [ {| ex_endpoint := Search;
                             ex_request := search_request ctx input;
                             ex_json := res |} ];
        db := db w; db_log := db_log w |}).
Proof.
  intros Hq. unfold search. fold (search_request ctx input).
  destruct (trim (q input)) as [| c t]; [congruence |]. simpl.
  unfold bind, fetch. cbv zeta.
  destruct (upstream Search _ _) as [e | tracks_items]; [reflexivity |].
  destruct (length tracks_items =? 0)%nat; reflexivity.
Qed.

(** A query with a character that is not white space costs exactly one
    request: a GET of [/search] that carries the bearer token and the query
    as it was typed, white space around it included. *)
Theorem search_sends_query_as_typed (ctx : Ctx) (input : SearchInput) (w : World) :
  trim (q input) <> [] ->
  exists json,
    new_exchanges w (snd (search table upstream ctx input w))
    = [ {| ex_endpoint := Search;
           ex_request :=
             {| url := API_BASE_URL ++ lit "/search";
                query := [ (lit "q", PStr (q input));
                           (lit "type", PStr (lit "track"));
                           (lit "offset", PNum (s_offset input));
                           (lit "limit", PNum (s_limit input)) ];
                method := GET;
                headers := [(lit "Authorization", lit "Bearer " ++ accessToken ctx)];
                body := None |};
           ex_json := json |} ]
    /\ db (snd (search table upstream ctx input w)) = db w
    /\ db_log (snd (search table upstream ctx input w)) = db_log w.
Proof.
  intros Hq. rewrite (search_run ctx input w Hq). cbv zeta.
  eexists. split; [apply new_exchanges_app; reflexivity | split; reflexivity].
Qed.

(** An error-shaped body makes the call fail with the code the table gives
    for the status, [INTERNAL_SERVER_ERROR] when the table has none, and
    the message [status! message]. *)
Theorem search_upstream_error (ctx : Ctx) (input : SearchInput) (w : World)
        (e : ApiError) :
  trim (q input) <> [] ->
  upstream Search (map ex_request (net w)) (search_request ctx input) = inl e ->
  fst (search table upstream ctx input w)
  = Throw (TRPCError
             (match table (status e) with
              | Some code => code
              | None => INTERNAL_SERVER_ERROR
              end)
             (show_int (status e) ++ lit "! " ++ message e)
             None).
Proof.
  intros Hq Hres. rewrite (search_run ctx input w Hq), Hres. reflexivity.
Qed.

(** A query that is not blank never yields the empty list: a body with no
    item makes the call fail with [NOT_FOUND], so a list that is returned
    has at least one track. *)
Theorem search_never_returns_empty (ctx : Ctx) (input : SearchInput) (w : World) :
  trim (q input) <> [] ->
  (forall l, fst (search table upstream ctx input w) = Ok l -> l <> [])
  /\ (upstream Search (map ex_request (net w)) (search_request ctx input) = inr [] ->
      fst (search table upstream ctx input w)
      = Throw (TRPCError NOT_FOUND (lit "No tracks found") None)).
Proof.
  intros Hq. rewrite (search_run ctx input w Hq). cbv zeta. split.
  - intros l. destruct (upstream Search _ _) as [e | [| item tracks_items]];
      simpl; intros H; inversion H. discriminate.
  - intros ->. reflexivity.
Qed.

(** The tracks returned are the items of the body, one for one and in
    order: same id, uri, name, artist names and duration, the last image
    of the album as image (none when the album has no image), and no audio
    features. *)
Theorem search_tracks (ctx : Ctx) (input : SearchInput) (w : World)
        (tracks_items : list RawTrack) :
  trim (q input) <> [] ->
  tracks_items <> [] ->
  upstream Search (map ex_request (net w)) (search_request ctx input)
  = inr tracks_items ->
  exists l,
    fst (search table upstream ctx input w) = Ok l
    /\ length l = length tracks_items
    /\ forall i item,
        nth_error tracks_items i = Some item ->
        exists t,
          nth_error l i = Some t
          /\ track_id t = raw_id item /\ uri t = raw_uri item
          /\ name t = raw_name item /\ artists t = raw_artists item
          /\ previewUrl t = raw_preview_url item
          /\ albumName t = album_name (raw_album item)
          /\ duration t = raw_duration_ms item
          /\ image t = last_of (album_images (raw_album item))
          /\ features t = None.
Proof.
  intros Hq Hitems Hres. rewrite (search_run ctx input w Hq), Hres. cbv zeta.
  destruct tracks_items as [| item0 rest]; [congruence |].
  cbn [length Nat.eqb fst]. eexists. split; [reflexivity |].
  split; [apply length_map |].
  intros i item Hi. exists (track_of item None).
  split; [exact (map_nth_error (fun item => track_of item None) _ _ Hi) |].
  unfold track_of; cbn. rewrite at_last_last_of. repeat split.
Qed.

End SearchOutcomes.

Lemma search_sends_query_as_typed_witness :
  exists json,
    new_exchanges Demo.empty_world
      (snd (search Demo.no_table Demo.healthy Demo.ctx (Demo.typed " daft punk ")
                   Demo.empty_world))
    = [ {| ex_endpoint := Search;
           ex_request :=
             {| url := API_BASE_URL ++ lit "/search";
                query := [ (lit "q", PStr (lit " daft punk "));
                           (lit "type", PStr (lit "track"));
                           (lit "offset", PNum 0);
                           (lit "limit", PNum 5) ];
                method := GET;
                headers := [(lit "Authorization", lit "Bearer " ++ lit "token")];
                body := None |};
           ex_json := json |} ]
    /\ db (snd (search Demo.no_table Demo.healthy Demo.ctx (Demo.typed " daft punk ")
                       Demo.empty_world)) = []
    /\ db_log (snd (search Demo.no_table Demo.healthy Demo.ctx
                           (Demo.typed " daft punk ") Demo.empty_world)) = [].
Proof.
  apply (search_sends_query_as_typed Demo.no_table Demo.healthy Demo.ctx
                                     (Demo.typed " daft punk ") Demo.empty_world).
  vm_compute. discriminate.
Defined.

Lemma search_upstream_error_witness :
  fst (search Demo.no_table Demo.down Demo.ctx (Demo.typed "daft punk")
              Demo.empty_world)
  = Throw (TRPCError INTERNAL_SERVER_ERROR (lit "429! slow down") None).
Proof.
  apply (@search_upstream_error Demo.no_table Demo.down Demo.ctx
                                (Demo.typed "daft punk") Demo.empty_world
                                Demo.rate_limited).
  - vm_compute. discriminate.
  - reflexivity.
Defined.

Lemma search_never_returns_empty_witness :
  (forall l,
      fst (search Demo.no_table Demo.nothing_found Demo.ctx (Demo.typed "zzzz")
                  Demo.empty_world) = Ok l -> l <> [])
  /\ (Demo.nothing_found Search (map ex_request (net Demo.empty_world))
                         (search_request Demo.ctx (Demo.typed "zzzz")) = inr [] ->
      fst (search Demo.no_table Demo.nothing_found Demo.ctx (Demo.typed "zzzz")
                  Demo.empty_world)
      = Throw (TRPCError NOT_FOUND (lit "No tracks found") None)).
Proof.
  apply (search_never_returns_empty Demo.no_table Demo.nothing_found Demo.ctx
                                    (Demo.typed "zzzz") Demo.empty_world).
  vm_compute. discriminate.
Defined.

Lemma search_tracks_witness :
  exists l,
    fst (search Demo.no_table Demo.healthy Demo.ctx (Demo.typed "daft punk")
                Demo.empty_world) = Ok l
    /\ length l = length [Demo.track 1]
    /\ forall i item,
        nth_error [Demo.track 1] i = Some item ->
        exists t,
          nth_error l i = Some t
          /\ track_id t = raw_id item /\ uri t = raw_uri item
          /\ name t = raw_name item /\ artists t = raw_artists item
          /\ previewUrl t = raw_preview_url item
          /\ albumName t = album_name (raw_album item)
          /\ duration t = raw_duration_ms item
          /\ image t = last_of (album_images (raw_album item))
          /\ features t = None.
Proof.
  apply (@search_tracks Demo.no_table Demo.healthy Demo.ctx (Demo.typed "daft punk")
                        Demo.empty_world [Demo.track 1]).
  - vm_compute. discriminate.
  - discriminate.
  - reflexivity.
Defined.

(* ------------------------------------------------------------------ *)
(** ** getRecommendations: seeds, refusals and missing entries *)

(** The first exception of a traversal whose callback throws only [E]. *)
Lemma mapi_from_throws {A B} (f : A -> nat -> Outcome B) (E : Exn) (l : list A) :
  (forall x k e, f x k = Throw e -> e = E) ->
  forall i,
    (exists k x e, nth_error l k = Some x /\ f x (i + k) = Throw e) ->
    mapi_from f i l = Throw E.
Proof.
  intros Honly. induction l as [| x l IH]; intros i (k & x' & e & Hk & Hf).
  - destruct k; discriminate.
  - simpl. destruct (f x i) as [y | e0] eqn:Hx.
    + destruct k as [| k]; simpl in Hk.
      * inversion Hk; subst. rewrite Nat.add_0_r in Hf. congruence.
      * rewrite (IH (S i)); [reflexivity |].
        exists k, x', e. split; [exact Hk |]. rewrite <- Hf. f_equal. lia.
    + rewrite (Honly _ _ _ Hx). reflexivity.
Qed.

Section RecommendationsOutcomes.

Variable table : Z -> option TRPC_ERROR_CODE_KEY.
Variable upstream : forall ep : Endpoint, list Request -> Request -> Json ep.

(** Without a seed there is nothing to ask: the call returns the empty
    list and the world is left as it was, whatever the other inputs. *)
Theorem getRecommendations_no_seeds (ctx : Ctx) (input : RecommendationsInput)
        (w : World) :
  trackSeeds input = [] ->
  getRecommendations table upstream ctx input w = (Ok [], w).
Proof.
  intros Hseeds. unfold getRecommendations. rewrite Hseeds. reflexivity.
Qed.

(** When the recommendation request is refused the call fails with the
    mapped error and stops: the audio-features lookup is not attempted. *)
Theorem getRecommendations_upstream_error (ctx : Ctx) (input : RecommendationsInput)
        (w : World) (e : ApiError) :
  trackSeeds input <> [] ->
  upstream Recommendations (map ex_request (net w))
           (recommendations_request ctx input) = inl e ->
  fst (getRecommendations table upstream ctx input w)
  = Throw (TRPCError
             (match table (status e) with
              | Some code => code
              | None => INTERNAL_SERVER_ERROR
              end)
             (show_int (status e) ++ lit "! " ++ message e)
             None)
  /\ new_exchanges w (snd (getRecommendations table upstream ctx input w))
     = [ {| ex_endpoint := Recommendations;
            ex_request := recommendations_request ctx input;
            ex_json := inl e |} ].
Proof.
  intros Hseeds Hrec.
  assert (Hrun : getRecommendations table upstream ctx input w
                 = (Throw (upstream_error table e),
                    {| net := net w ++ [ {| ex_endpoint := Recommendations;
                                            ex_request := recommendations_request ctx input;
                                            ex_json := inl e |} ];
                       db := db w; db_log := db_log w |})).
  { unfold getRecommendations.
    destruct (trackSeeds input) as [| s seeds]; [congruence |]. simpl.
    unfold bind at 1. unfold fetch at 1. rewrite Hrec. reflexivity. }
  rewrite Hrun. split; [reflexivity | apply new_exchanges_app; reflexivity].
Qed.

(** When the recommendation request succeeds the call makes exactly one
    more request, whatever its outcome: a GET of [/audio-features] whose
    [ids] are the ids of the recommended tracks, in order, joined by
    commas.  The first request carries the seeds joined by commas and the
    limit. *)
Theorem getRecommendations_requests (ctx : Ctx) (input : RecommendationsInput)
        (w : World) (tracks : list RawTrack) :
  trackSeeds input <> [] ->
  upstream Recommendations (map ex_request (net w))
           (recommendations_request ctx input) = inr tracks ->
  exists first second,
    map ex_request
        (new_exchanges w (snd (getRecommendations table upstream ctx input w)))
    = [first; second]
    /\ url first = API_BASE_URL ++ lit "/recommendations"
    /\ method first = GET
    /\ get_param "seed_tracks" (query first)
       = Some (PStr (join (lit ",") (trackSeeds input)))
    /\ get_param "limit" (query first) = Some (PNum (r_limit input))
    /\ second
       = {| url := API_BASE_URL ++ lit "/audio-features";
            query := [ (lit "ids", PStr (join (lit ",") (map raw_id tracks))) ];
            method := GET;
            headers := [(lit "Authorization", lit "Bearer " ++ accessToken ctx)];
            body := None |}.
Proof.
  intros Hseeds Hrec.
  exists (recommendations_request ctx input),
         (audio_features_request ctx (map raw_id tracks)).
  split.
  { unfold getRecommendations.
    destruct (trackSeeds input) as [| s seeds]; [congruence |]. simpl.
    unfold bind at 1. unfold fetch at 1. rewrite Hrec.
    unfold bind, fetch, lift, new_exchanges. cbn [snd net].
    rewrite <- app_assoc, skipn_app, skipn_all, Nat.sub_diag.
    reflexivity. }
  split; [reflexivity |]. split; [reflexivity |].
  unfold recommendations_request, recommendation_params. cbn [query].
  repeat split.
Qed.

(** A successful lookup that has no entry for one of the recommended
    tracks (a null, or an array that is too short) makes the whole call
    fail with a [TypeError], although the recommendations themselves
    arrived. *)
Theorem getRecommendations_missing_entry
        (ctx : Ctx) (input : RecommendationsInput) (w : World)
        (tracks : list RawTrack) (audio_features : list (option RawAudioFeatures))
        (i : nat) :
  trackSeeds input <> [] ->
  upstream Recommendations (map ex_request (net w))
           (recommendations_request ctx input) = inr tracks ->
  upstream AudioFeaturesLookup
           (map ex_request (net w) ++ [recommendations_request ctx input])
           (audio_features_request ctx (map raw_id tracks)) = inr audio_features ->
  (i < length tracks)%nat ->
  nth_error audio_features i = Some None \/ nth_error audio_features i = None ->
  fst (getRecommendations table upstream ctx input w) = Throw TypeError.
Proof.
  intros Hseeds Hrec Haf Hi Hentry.
  rewrite (@getRecommendations_run table upstream ctx input w tracks Hseeds Hrec), Haf.
  unfold mapi. apply mapi_from_throws.
  - intros track k e. unfold scaled_features.
    destruct (nth_error audio_features k) as [[af |] |]; intros H; inversion H;
      reflexivity.
  - destruct (nth_error tracks i) as [track |] eqn:Htrack;
      [| apply nth_error_None in Htrack; lia].
    exists i, track, TypeError. split; [exact Htrack |]. simpl.
    unfold scaled_features. destruct Hentry as [-> | ->]; reflexivity.
Qed.

End RecommendationsOutcomes.

Lemma getRecommendations_no_seeds_witness :
  let input := {| trackSeeds := []; r_limit := 10;
                  r_danceability := Some 50%float; r_tempo := None;
                  r_valence := None; r_energy := None |} in
  getRecommendations Demo.no_table Demo.healthy Demo.ctx input Demo.empty_world
  = (Ok [], Demo.empty_world).
Proof.
  apply getRecommendations_no_seeds. reflexivity.
Defined.

Lemma getRecommendations_upstream_error_witness :
  fst (getRecommendations Demo.no_table Demo.down Demo.ctx Demo.seeded
                          Demo.empty_world)
  = Throw (TRPCError INTERNAL_SERVER_ERROR (lit "429! slow down") None)
  /\ new_exchanges Demo.empty_world
       (snd (getRecommendations Demo.no_table Demo.down Demo.ctx Demo.seeded
                                Demo.empty_world))
     = [ {| ex_endpoint := Recommendations;
            ex_request := recommendations_request Demo.ctx Demo.seeded;
            ex_json := inl Demo.rate_limited |} ].
Proof.
  apply (@getRecommendations_upstream_error
           Demo.no_table Demo.down Demo.ctx Demo.seeded Demo.empty_world
           Demo.rate_limited).
  - discriminate.
  - reflexivity.
Defined.

Lemma getRecommendations_requests_witness :
  exists first second,
    map ex_request
        (new_exchanges Demo.empty_world
           (snd (getRecommendations Demo.no_table Demo.no_audio_features Demo.ctx
                                    Demo.seeded Demo.empty_world)))
    = [first; second]
    /\ url first = API_BASE_URL ++ lit "/recommendations"
    /\ method first = GET
    /\ get_param "seed_tracks" (query first)
       = Some (PStr (join (lit ",") [lit "seed"]))
    /\ get_param "limit" (query first) = Some (PNum 2)
    /\ second
       = {| url := API_BASE_URL ++ lit "/audio-features";
            query := [ (lit "ids",
                        PStr (join (lit ",")
                                   (map raw_id [Demo.track 1; Demo.track 2]))) ];
            method := GET;
            headers := [(lit "Authorization", lit "Bearer " ++ lit "token")];
            body := None |}.
Proof.
  apply (@getRecommendations_requests
           Demo.no_table Demo.no_audio_features Demo.ctx Demo.seeded
           Demo.empty_world [Demo.track 1; Demo.track 2]).
  - discriminate.
  - reflexivity.
Defined.

Lemma getRecommendations_missing_entry_witness :
  fst (getRecommendations Demo.no_table Demo.one_unknown_track Demo.ctx Demo.seeded
                          Demo.empty_world)
  = Throw TypeError.
Proof.
  apply (@getRecommendations_missing_entry
           Demo.no_table Demo.one_unknown_track Demo.ctx Demo.seeded
           Demo.empty_world [Demo.track 1; Demo.track 2]
           [ Some {| af_danceability := 0.567; af_energy := 0.5;
                     af_tempo := 120.5; af_valence := 1 |};
             None ] 1).
  - discriminate.
  - reflexivity.
  - reflexivity.
  - simpl. lia.
  - left. reflexivity.
Defined.

(* ------------------------------------------------------------------ *)
(** ** createPlaylist: refusal, success and the store *)

Section CreatePlaylistOutcomes.

Variable table : Z -> option TRPC_ERROR_CODE_KEY.
Variable upstream : forall ep : Endpoint, list Request -> Request -> Json ep.
Variable store_create : list PlaylistRow -> CreateData -> PrismaError + PlaylistRow.

(** When the creation is refused the call fails with the mapped error
    after that one request: no track is sent and the store is not
    touched. *)
Theorem createPlaylist_refused_creation (ctx : Ctx) (input : CreatePlaylistInput)
        (w : World) (e : ApiError) :
  let run := createPlaylist table upstream store_create ctx input w in
  upstream NewPlaylist (map ex_request (net w)) (new_playlist_request ctx input)
  = inl e ->
  fst run
  = Throw (TRPCError
             (match table (status e) with
              | Some code => code
              | None => INTERNAL_SERVER_ERROR
              end)
             (show_int (status e) ++ lit "! " ++ message e)
             None)
  /\ new_exchanges w (snd run)
     = [ {| ex_endpoint := NewPlaylist;
            ex_request := new_playlist_request ctx input;
            ex_json := inl e |} ]
  /\ db (snd run) = db w
  /\ db_log (snd run) = db_log w.
Proof.
  cbv zeta. intros Hnew.
  rewrite (@createPlaylist_refused table upstream store_create ctx input w e Hnew).
  split; [reflexivity |].
  split; [apply new_exchanges_app; reflexivity | split; reflexivity].
Qed.

(** When the creation and every batch succeed and the store accepts the
    row, the call returns the name and the URL, the table gains exactly
    that row, and the one query sent to the store is the [create] of the
    new playlist's id for the current user. *)
Theorem createPlaylist_success (ctx : Ctx) (input : CreatePlaylistInput) (w : World)
        (created : RawPlaylist) (row : PlaylistRow) :
  let run := createPlaylist table upstream store_create ctx input w in
  let data := {| data_spotifyId := pl_id created; data_createdBy := user_id ctx |} in
  upstream NewPlaylist (map ex_request (net w)) (new_playlist_request ctx input)
  = inr created ->
  Forall (fun x => ex_error x = None) (new_exchanges w (snd run)) ->
  store_create (db w) data = inr row ->
  fst run = Ok {| out_name := cp_name input;
                  out_url := lit "https://open.spotify.com/playlist/" ++ pl_id created |}
  /\ db (snd run) = db w ++ [row]
  /\ db_log (snd run) = db_log w ++ [Create data].
Proof.
  cbv zeta. intros Hnew Hclean Hstore.
  destruct (@createPlaylist_run table upstream store_create ctx input w created Hnew)
    as (jsons & Hlen & Hrun).
  cbv zeta in Hrun. rewrite Hrun in Hclean |- *.
  destruct (0 <? length (errors_of jsons))%nat eqn:Hsome.
  - exfalso. added_exchanges_in Hclean.
    inversion Hclean as [| x l _ Hbatches]; subst.
    apply errors_in_nil_iff in Hbatches.
    unfold errors_in in Hbatches. rewrite errors_of_exchanges in Hbatches by exact Hlen.
    rewrite Hbatches in Hsome. discriminate.
  - rewrite Hstore. repeat split.
Qed.

(** The call touches the store at most once, and only after a run in
    which no request was refused: either nothing was sent to the store and
    the table is as before, or one [create] was sent, every exchange of
    the run is free of errors, and the table gained at most one row. *)
Theorem createPlaylist_store_once (ctx : Ctx) (input : CreatePlaylistInput)
        (w : World) :
  let run := createPlaylist table upstream store_create ctx input w in
  (db_log (snd run) = db_log w /\ db (snd run) = db w)
  \/ (exists data,
         db_log (snd run) = db_log w ++ [Create data]
         /\ data_createdBy data = user_id ctx
         /\ Forall (fun x => ex_error x = None) (new_exchanges w (snd run))
         /\ (db (snd run) = db w
             \/ exists row, store_create (db w) data = inr row
                            /\ db (snd run) = db w ++ [row])).
Proof.
  cbv zeta.
  destruct (upstream NewPlaylist (map ex_request (net w))
                     (new_playlist_request ctx input)) as [e | created] eqn:Hnew.
  - left.
    rewrite (@createPlaylist_refused table upstream store_create ctx input w e Hnew).
    split; reflexivity.
  - destruct (@createPlaylist_run table upstream store_create ctx input w created Hnew)
      as (jsons & Hlen & Hrun).
    cbv zeta in Hrun. rewrite Hrun.
    destruct (0 <? length (errors_of jsons))%nat eqn:Hsome;
      [left; split; reflexivity |].
    right. eexists. 
    assert (Hclean : Forall (fun x => ex_error x = None)
                            ({| ex_endpoint := NewPlaylist;
                                ex_request := new_playlist_request ctx input;
                                ex_json := inr created |}
                               :: map (exchange_of AddTracks)
                                      (combine (add_tracks_configs ctx input
                                                                   (pl_id created))
                                               jsons))).
    { constructor; [reflexivity |]. apply errors_in_nil_iff.
      unfold errors_in. rewrite errors_of_exchanges by exact Hlen.
      destruct (errors_of jsons); [reflexivity | discriminate]. }
    destruct (store_create (db w) _) as [e | row] eqn:Hstore; cbn [fst snd db db_log].
    + split; [reflexivity |]. split; [reflexivity |].
      split; [erewrite new_exchanges_app; [exact Hclean | reflexivity] |].
      left. reflexivity.
    + split; [reflexivity |]. split; [reflexivity |].
      split; [erewrite new_exchanges_app; [exact Hclean | reflexivity] |].
      right. exists row. split; [exact Hstore | reflexivity].
Qed.

(** A call that returns has created the playlist it names: its first
    request was answered with a playlist, the URL returned is that
    playlist's, the name returned is the one given, and no exchange of the
    run carries an error. *)
Theorem createPlaylist_returned (ctx : Ctx) (input : CreatePlaylistInput)
        (w : World) (r : CreatePlaylistOutput) :
  let run := createPlaylist table upstream store_create ctx input w in
  fst run = Ok r ->
  exists created,
    upstream NewPlaylist (map ex_request (net w)) (new_playlist_request ctx input)
    = inr created
    /\ out_name r = cp_name input
    /\ out_url r = lit "https://open.spotify.com/playlist/" ++ pl_id created
    /\ Forall (fun x => ex_error x = None) (new_exchanges w (snd run))
    /\ length (new_exchanges w (snd run))
       = S (length (add_tracks_configs ctx input (pl_id created))).
Proof.
  cbv zeta.
  destruct (upstream NewPlaylist (map ex_request (net w))
                     (new_playlist_request ctx input)) as [e | created] eqn:Hnew.
  - rewrite (@createPlaylist_refused table upstream store_create ctx input w e Hnew).
    discriminate.
  - destruct (@createPlaylist_run table upstream store_create ctx input w created Hnew)
      as (jsons & Hlen & Hrun).
    cbv zeta in Hrun. rewrite Hrun.
    destruct (0 <? length (errors_of jsons))%nat eqn:Hsome; [discriminate |].
    assert (Hclean : Forall (fun x => ex_error x = None)
                            ({| ex_endpoint := NewPlaylist;
                                ex_request := new_playlist_request ctx input;
                                ex_json := inr created |}
                               :: map (exchange_of AddTracks)
                                      (combine (add_tracks_configs ctx input
                                                                   (pl_id created))
                                               jsons))).
    { constructor; [reflexivity |]. apply errors_in_nil_iff.
      unfold errors_in. rewrite errors_of_exchanges by exact Hlen.
      destruct (errors_of jsons); [reflexivity | discriminate]. }
    destruct (store_create (db w) _) as [[c | | | |] | row];
      cbn [fst snd]; intros Hr; try discriminate;
      inversion Hr; subst r; exists created;
      (split; [reflexivity |]); (split; [reflexivity |]); (split; [reflexivity |]);
      (erewrite new_exchanges_app; [| reflexivity]);
      (split; [exact Hclean |]);
      cbn [length]; rewrite length_map, length_combine, Hlen, Nat.min_id;
      reflexivity.
Qed.

End CreatePlaylistOutcomes.

Lemma createPlaylist_refused_creation_witness :
  let run := createPlaylist Demo.no_table Demo.down Demo.create_ok Demo.ctx
                            (Demo.mixtape 3) Demo.empty_world in
  fst run = Throw (TRPCError INTERNAL_SERVER_ERROR (lit "429! slow down") None)
  /\ new_exchanges Demo.empty_world (snd run)
     = [ {| ex_endpoint := NewPlaylist;
            ex_request := new_playlist_request Demo.ctx (Demo.mixtape 3);
            ex_json := inl Demo.rate_limited |} ]
  /\ db (snd run) = db Demo.empty_world
  /\ db_log (snd run) = db_log Demo.empty_world.
Proof.
  apply (@createPlaylist_refused_creation
           Demo.no_table Demo.down Demo.create_ok Demo.ctx (Demo.mixtape 3)
           Demo.empty_world Demo.rate_limited).
  reflexivity.
Defined.

Lemma createPlaylist_success_witness :
  let run := createPlaylist Demo.no_table Demo.healthy Demo.create_ok Demo.ctx
                            (Demo.mixtape 150) Demo.empty_world in
  let data := {| data_spotifyId := lit "p"; data_createdBy := lit "alice" |} in
  fst run = Ok {| out_name := lit "mixtape";
                  out_url := lit "https://open.spotify.com/playlist/" ++ lit "p" |}
  /\ db (snd run)
     = [] ++ [ {| row_id := [0%N]; spotifyId := lit "p"; createdBy := lit "alice";
                  createdAt := 0 |} ]
  /\ db_log (snd run) = [] ++ [Create data].
Proof.
  apply (@createPlaylist_success
           Demo.no_table Demo.healthy Demo.create_ok Demo.ctx (Demo.mixtape 150)
           Demo.empty_world (Demo.playlist (lit "p"))
           {| row_id := [0%N]; spotifyId := lit "p"; createdBy := lit "alice";
              createdAt := 0 |}).
  - reflexivity.
  - vm_compute. repeat constructor.
  - reflexivity.
Defined.

Lemma createPlaylist_returned_witness :
  let run := createPlaylist Demo.no_table Demo.healthy Demo.create_ok Demo.ctx
                            (Demo.mixtape 150) Demo.empty_world in
  exists r created,
    fst run = Ok r
    /\ Demo.healthy NewPlaylist (map ex_request (net Demo.empty_world))
                    (new_playlist_request Demo.ctx (Demo.mixtape 150))
       = inr created
    /\ out_name r = cp_name (Demo.mixtape 150)
    /\ out_url r = lit "https://open.spotify.com/playlist/" ++ pl_id created
    /\ Forall (fun x => ex_error x = None) (new_exchanges Demo.empty_world (snd run))
    /\ length (new_exchanges Demo.empty_world (snd run))
       = S (length (add_tracks_configs Demo.ctx (Demo.mixtape 150) (pl_id created))).
Proof.
  cbv zeta. eexists.
  assert (Hr : fst (createPlaylist Demo.no_table Demo.healthy Demo.create_ok Demo.ctx
                                   (Demo.mixtape 150) Demo.empty_world) = Ok _)
    by (vm_compute; reflexivity).
  destruct (@createPlaylist_returned
              Demo.no_table Demo.healthy Demo.create_ok Demo.ctx (Demo.mixtape 150)
              Demo.empty_world _ Hr) as (created & H).
  exists created. split; [exact Hr | exact H].
Defined.

(* ------------------------------------------------------------------ *)
(** ** getPlaylists: what it reads, what it never writes *)

(** A traversal whose steps throw nothing but [E] throws nothing but [E]. *)
Lemma for_each_throws_only {A B} (E : Exn) (f : A -> Async B) (l : list A) :
  (forall x w e w', f x w = (Throw e, w') -> e = E) ->
  forall w e w', for_each f l w = (Throw e, w') -> e = E.
Proof.
  intros Hf. induction l as [| x l IH]; intros w e w' H; simpl in H.
  - discriminate.
  - unfold bind at 1 in H. destruct (f x w) as [[y | e0] w1] eqn:Hx.
    + unfold bind at 1 in H.
      destruct (for_each f l w1) as [[ys | e1] w2] eqn:Hl; [discriminate |].
      inversion H; subst. eapply IH; eauto.
    + inversion H; subst. eapply Hf; eauto.
Qed.

(** Every element of a traversal that returned was handled without an
    exception. *)
Lemma for_each_handled {A B} (f : A -> Async B) (l : list A) :
  forall w ys w',
    for_each f l w = (Ok ys, w') ->
    Forall (fun x => exists w0 y w1, f x w0 = (Ok y, w1)) l.
Proof.
  induction l as [| x l IH]; intros w ys w' H; simpl in H; [constructor |].
  unfold bind at 1 in H. destruct (f x w) as [[y | e] w1] eqn:Hx; [| discriminate].
  unfold bind at 1 in H.
  destruct (for_each f l w1) as [[ys' | e] w2] eqn:Hl; [| discriminate].
  constructor; [eauto | eapply IH; eauto].
Qed.

Section PlaylistsOutcomes.

Variable upstream : forall ep : Endpoint, list Request -> Request -> Json ep.
Variable store_count : list PlaylistRow -> option jsstring -> Z.
Variable store_findMany : list PlaylistRow -> FindManyArgs -> list PlaylistRow.

Lemma fetch_get_extends (ep : Endpoint) (req : Request) (w : World) :
  method req = GET ->
  extends (fun x => method (ex_request x) = GET) w (snd (fetch upstream ep req w)).
Proof.
  intros Hget. unfold fetch; simpl. repeat split. eexists. split; [reflexivity |].
  repeat constructor. exact Hget.
Qed.

Lemma playlist_audio_features_get (ctx : Ctx) (playlist : Json GetPlaylist)
      (w : World) :
  extends (fun x => method (ex_request x) = GET) w
          (snd (playlist_audio_features upstream ctx playlist w)).
Proof.
  destruct playlist as [e | p]; simpl.
  - apply extends_refl.
  - unfold sequentialFetch. rewrite <- for_each_map.
    apply for_each_extends. intros index w0. apply fetch_get_extends. reflexivity.
Qed.

(** The call only reads.  It sends the store a [count] and a [findMany]
    with the same filter (the current user when [isCreatorOnly], none
    otherwise), newest first, and no [create]; the table is left as it
    was; and every request it makes upstream is a GET.  This holds for
    every outcome of the call. *)
Theorem getPlaylists_read_only (ctx : Ctx) (input : PlaylistsInput) (w : World) :
  let w' := snd (getPlaylists upstream store_count store_findMany ctx input w) in
  let filter := if isCreatorOnly input then Some (user_id ctx) else None in
  db w' = db w
  /\ (exists args,
         db_log w' = db_log w ++ [Count filter; FindMany args]
         /\ fm_where args = filter
         /\ orderBy_createdAt args = desc)
  /\ Forall (fun x => method (ex_request x) = GET) (new_exchanges w w').
Proof.
  cbv zeta. rewrite getPlaylists_world.
  destruct (getPlaylists_queries upstream store_count store_findMany ctx input w)
    as [Hlog Hdb].
  split; [exact Hdb |].
  split; [exists (page_query ctx input); split; [exact Hlog | split; reflexivity] |].
  unfold getPlaylists_resolve.
  cbv [bind prisma_count prisma_findMany lift ret]. cbn [db net db_log].
  set (w2 := {| net := net w; db := db w;
                db_log := (db_log w ++ [Count (creator_filter ctx input)])
                            ++ [FindMany _] |}).
  assert (Hgoal : forall w3, extends (fun x => method (ex_request x) = GET) w2 w3 ->
                             Forall (fun x => method (ex_request x) = GET)
                                    (new_exchanges w w3)).
  { intros w3 (_ & _ & new & Hnet & Hnew).
    erewrite new_exchanges_app; [exact Hnew | exact Hnet]. }
  apply Hgoal.
  match goal with
  | |- context [split_page ?l ?found] =>
      destruct (split_page l found) as [[page nc] | e]
  end; [| apply extends_refl].
  match goal with
  | |- context [for_each ?f page w2] =>
      pose proof (@for_each_extends _ _ (fun x => method (ex_request x) = GET) f page
                    (fun x w0 => fetch_get_extends GetPlaylist
                                   (playlist_request ctx (spotifyId x)) w0 eq_refl)
                    w2) as H1;
      destruct (for_each f page w2) as [[spotifyPlaylists | e] w3]
  end; [| exact H1].
  pose proof (@for_each_extends _ _ _ (playlist_audio_features upstream ctx)
                spotifyPlaylists (playlist_audio_features_get ctx) w3) as H2.
  destruct (for_each _ spotifyPlaylists w3) as [[audioFeatures | e] w4];
    [| eapply extends_trans; eauto].
  assert (H4 : extends (fun x => method (ex_request x) = GET) w2 w4)
    by (eapply extends_trans; eauto).
  destruct (mapi _ audioFeatures) as [averages | e]; [| exact H4].
  destruct (mapi _ (combine _ _)) as [playlists | e]; exact H4.
Qed.

(** A cursor that is missing, [null] or the empty string is no cursor: the
    three calls run alike, from the first row. *)
Theorem getPlaylists_falsy_cursor (ctx : Ctx) (l : nullish Z) (mine : bool)
        (w : World) :
  let run := fun c =>
    getPlaylists upstream store_count store_findMany ctx
                 {| limit := l; cursor := c; isCreatorOnly := mine |} w in
  run Null = run Undefined
  /\ run (Val []) = run Undefined
  /\ exists args,
      db_log (snd (run Undefined))
      = db_log w ++ [Count (if mine then Some (user_id ctx) else None); FindMany args]
      /\ fm_cursor args = None.
Proof.
  cbv zeta. split; [reflexivity |]. split; [reflexivity |].
  rewrite getPlaylists_world.
  destruct (getPlaylists_queries upstream store_count store_findMany ctx
              {| limit := l; cursor := Undefined; isCreatorOnly := mine |} w)
    as [Hlog _].
  eexists. split; [exact Hlog | reflexivity].
Qed.

(** The total a call returns is the store's count under the filter of the
    call, so it is the same for every limit and cursor. *)
Theorem getPlaylists_total (ctx : Ctx) (input input' : PlaylistsInput) (w : World)
        (r r' : PlaylistsOutput) :
  isCreatorOnly input = isCreatorOnly input' ->
  fst (getPlaylists upstream store_count store_findMany ctx input w) = Ok r ->
  fst (getPlaylists upstream store_count store_findMany ctx input' w) = Ok r' ->
  total r = store_count (db w) (if isCreatorOnly input then Some (user_id ctx) else None)
  /\ total r' = total r.
Proof.
  intros Hsame Hr Hr'.
  apply getPlaylists_returned in Hr, Hr'. destruct Hr as [Hr _], Hr' as [Hr' _].
  destruct (@getPlaylists_ok upstream store_count store_findMany ctx input w r Hr)
    as (_ & _ & Ht & _).
  destruct (@getPlaylists_ok upstream store_count store_findMany ctx input' w r' Hr')
    as (_ & _ & Ht' & _).
  rewrite Ht, Ht'. unfold creator_filter. rewrite Hsame. split; reflexivity.
Qed.

(** For any store and any limit: when a call returns a cursor, it is the
    id of the last row the store answered with, that row is not in the
    page, and the answer had more rows than the limit; when it returns
    none, the page has as many items as the answer, which had at most
    [limit] rows. *)
Theorem getPlaylists_cursor_is_last_row (ctx : Ctx) (input : PlaylistsInput)
        (w : World) (r : PlaylistsOutput) :
  let L := coalesce (limit input) 50%Z in
  let found := store_findMany (db w) (page_query ctx input) in
  fst (getPlaylists upstream store_count store_findMany ctx input w) = Ok r ->
  (nextCursor r = None
   /\ length (items r) = length found
   /\ (Z.of_nat (length found) <= L)%Z)
  \/ (exists page extra,
         found = page ++ [extra]
         /\ nextCursor r = Some (row_id extra)
         /\ length (items r) = length page
         /\ (L < Z.of_nat (length found))%Z).
Proof.
  cbv zeta. intros Hr. apply getPlaylists_returned in Hr. destruct Hr as [Hr _].
  destruct (@getPlaylists_ok upstream store_count store_findMany ctx input w r Hr)
    as (page & Hpage & _ & Hitems & _).
  unfold split_page in Hpage.
  destruct (Z.gtb_spec (Z.of_nat (length (store_findMany (db w) (page_query ctx input))))
                       (coalesce (limit input) 50%Z)) as [Hgt | Hle].
  - right. unfold pop in Hpage.
    destruct (rev (store_findMany (db w) (page_query ctx input)))
      as [| extra rest] eqn:Hrev; [discriminate |].
    inversion Hpage as [[Hp Hc]]. exists (rev rest), extra.
    split.
    { rewrite <- (rev_involutive (store_findMany (db w) (page_query ctx input))), Hrev.
      reflexivity. }
    split; [reflexivity |]. split; [rewrite Hitems, <- Hp; reflexivity | lia].
  - left. inversion Hpage as [[Hp Hc]]. subst page.
    split; [reflexivity |]. split; [exact Hitems | lia].
Qed.

Lemma playlist_audio_features_throws (ctx : Ctx) (playlist : Json GetPlaylist)
      (w : World) (e : Exn) (w' : World) :
  playlist_audio_features upstream ctx playlist w = (Throw e, w') ->
  e = TypeError /\ error playlist <> None.
Proof.
  destruct playlist as [e0 | p]; simpl.
  - unfold throw. intros H. inversion H. split; [reflexivity | discriminate].
  - match goal with
    | |- sequentialFetch upstream AudioFeaturesLookup ?c w = _ -> _ =>
        destruct (sequentialFetch_run upstream AudioFeaturesLookup c w)
          as (jsons & _ & Hrun); rewrite Hrun
    end.
    discriminate.
Qed.

Lemma playlist_audio_features_handled (ctx : Ctx) (playlist : Json GetPlaylist) :
  (exists w0 y w1, playlist_audio_features upstream ctx playlist w0 = (Ok y, w1)) ->
  exists p, playlist = inr p.
Proof.
  destruct playlist as [e | p]; [| eexists; reflexivity].
  intros (w0 & y & w1 & H). discriminate.
Qed.

Lemma getPlaylists_resolve_refused (ctx : Ctx) (input : PlaylistsInput) (w : World) :
  let run := getPlaylists_resolve upstream store_count store_findMany ctx input w in
  Exists (fun x => ex_endpoint x = GetPlaylist /\ ex_error x <> None)
         (new_exchanges w (snd run)) ->
  fst run = Throw TypeError.
Proof.
  cbv zeta. unfold getPlaylists_resolve.
  cbv [bind prisma_count prisma_findMany lift ret]. cbn [db net db_log].
  destruct (split_page _ _) as [[page nc] | e].
  2:{ intros H. exfalso. unfold new_exchanges in H. cbn [snd net] in H.
      rewrite skipn_all in H. inversion H. }
  rewrite (for_each_map (fun row => playlist_request ctx (spotifyId row))
                        (fetch upstream GetPlaylist) page).
  match goal with
  | |- context [for_each (fetch upstream GetPlaylist) ?configs ?w2] =>
      destruct (sequentialFetch_run upstream GetPlaylist configs w2)
        as (jsons & Hlen & Hrun);
      unfold sequentialFetch in Hrun; rewrite Hrun
  end.
  cbn [net db db_log].
  match goal with
  | |- context [for_each (playlist_audio_features upstream ctx) jsons ?w3] =>
      pose proof (@for_each_extends _ _ _ (playlist_audio_features upstream ctx) jsons
                    (playlist_audio_features_extends upstream ctx) w3)
        as (_ & _ & rest & Hnet & Hrest);
      pose proof (@for_each_throws_only _ _ TypeError
                    (playlist_audio_features upstream ctx) jsons
                    (fun x w0 e w0' H =>
                       proj1 (@playlist_audio_features_throws ctx x w0 e w0' H))
                    w3) as Honly;
      pose proof (@for_each_handled _ _ (playlist_audio_features upstream ctx) jsons w3)
        as Hhandled;
      destruct (for_each (playlist_audio_features upstream ctx) jsons w3)
        as [[audioFeatures | e] w4]
  end.
  2:{ intros _. cbn [fst]. f_equal. eapply Honly. reflexivity. }
  intros Hfailed. exfalso.
  specialize (Hhandled _ _ eq_refl). cbn [snd net] in Hnet.
  assert (Hsent : Exists (fun x => ex_endpoint x = GetPlaylist /\ ex_error x <> None)
                         (map (exchange_of GetPlaylist)
                              (combine (map (fun row =>
                                               playlist_request ctx (spotifyId row))
                                            page) jsons)
                            ++ rest)).
  { destruct (mapi average_of_playlist audioFeatures) as [averages | e];
      [destruct (mapi _ (combine jsons averages)) as [playlists | e] |];
      unfold new_exchanges in Hfailed; cbn [snd] in Hfailed;
      rewrite Hnet, <- app_assoc, skipn_app, skipn_all, Nat.sub_diag in Hfailed;
      exact Hfailed. }
  apply Exists_app in Hsent. destruct Hsent as [Hsent | Hsent];
    rewrite Exists_exists in Hsent; destruct Hsent as (x & Hx & Hep & Herr).
  - apply in_map_iff in Hx. destruct Hx as ([req json] & <- & Hin).
    apply in_combine_r in Hin. rewrite Forall_forall in Hhandled.
    destruct (@playlist_audio_features_handled ctx json (Hhandled json Hin)) as [p ->].
    apply Herr. reflexivity.
  - rewrite Forall_forall in Hrest. rewrite (Hrest x Hx) in Hep. discriminate.
Qed.

(** One playlist that upstream does not return (a body that carries an
    error, as for a playlist deleted upstream) makes the whole listing fail
    with a [TypeError]. *)
Theorem getPlaylists_refused_playlist (ctx : Ctx) (input : PlaylistsInput)
        (w : World) :
  let run := getPlaylists upstream store_count store_findMany ctx input w in
  Exists (fun x => ex_endpoint x = GetPlaylist /\ ex_error x <> None)
         (new_exchanges w (snd run)) ->
  fst run = Throw TypeError.
Proof.
  cbv zeta. rewrite getPlaylists_world. intros Hfailed.
  apply getPlaylists_throws. apply getPlaylists_resolve_refused. exact Hfailed.
Qed.

Lemma playlists_of_bodies (ps : list RawPlaylist) :
  forall (averages : list AudioFeatures) (i : nat),
    mapi_from (fun (pa : Json GetPlaylist * AudioFeatures) (_ : nat) =>
                 playlist_of (fst pa) (snd pa))
              i (combine (map inr ps) averages)
    = Ok (map (fun pa : RawPlaylist * AudioFeatures =>
                 {| p_id := pl_id (fst pa);
                    p_name := pl_name (fst pa);
                    p_description := pl_description (fst pa);
                    p_image := nth_error (pl_images (fst pa)) 1;
                    p_uri := lit "https://open.spotify.com/playlist/" ++ pl_id (fst pa);
                    p_audioFeatures := snd pa |})
              (combine ps averages)).
Proof.
  induction ps as [| p ps IH]; intros [| a averages] i; simpl; try reflexivity.
  rewrite IH. reflexivity.
Qed.

Lemma map_fst_combine {A B} (l : list A) (l' : list B) :
  length l = length l' -> map fst (combine l l') = l.
Proof.
  revert l'. induction l as [| x l IH]; intros [| y l'] H; simpl in *;
    try discriminate; [reflexivity |].
  f_equal. apply IH. lia.
Qed.

(** What the resolver makes of the playlists upstream returned. *)
Lemma getPlaylists_resolve_items (ctx : Ctx) (input : PlaylistsInput) (w : World)
      (r : PlaylistsOutput) :
  let run := getPlaylists_resolve upstream store_count store_findMany ctx input w in
  fst run = Ok r ->
  exists (page : list PlaylistRow) (ps : list RawPlaylist) (rest : list Exchange),
    split_page (coalesce (limit input) 50%Z)
               (store_findMany (db w) (page_query ctx input))
    = Ok (page, nextCursor r)
    /\ length ps = length page
    /\ new_exchanges w (snd run)
       = map (exchange_of GetPlaylist)
             (combine (map (fun row => playlist_request ctx (spotifyId row)) page)
                      (map inr ps))
           ++ rest
    /\ map p_id (items r) = map pl_id ps
    /\ map p_name (items r) = map pl_name ps
    /\ map p_description (items r) = map pl_description ps
    /\ map p_image (items r) = map (fun p => nth_error (pl_images p) 1) ps
    /\ Forall (fun item =>
                 p_uri item = lit "https://open.spotify.com/playlist/" ++ p_id item)
              (items r)
    /\ Forall (fun x => ex_endpoint x = AudioFeaturesLookup) rest.
Proof.
  cbv zeta. unfold getPlaylists_resolve.
  cbv [bind prisma_count prisma_findMany lift ret]. cbn [db net db_log].
  fold (page_query ctx input).
  destruct (split_page _ (store_findMany (db w) (page_query ctx input)))
    as [[page nc] | e]; [| discriminate].
  rewrite (for_each_map (fun row => playlist_request ctx (spotifyId row))
                        (fetch upstream GetPlaylist) page).
  match goal with
  | |- context [for_each (fetch upstream GetPlaylist) ?configs ?w2] =>
      destruct (sequentialFetch_run upstream GetPlaylist configs w2)
        as (jsons & Hlen & Hrun);
      unfold sequentialFetch in Hrun; rewrite Hrun
  end.
  rewrite length_map in Hlen. cbn [net db db_log].
  match goal with
  | |- context [for_each (playlist_audio_features upstream ctx) jsons ?w3] =>
      pose proof (@for_each_extends _ _ _ (playlist_audio_features upstream ctx) jsons
                    (playlist_audio_features_extends upstream ctx) w3)
        as (_ & _ & rest & Hnet & Hrest);
      pose proof (@for_each_length _ _ (playlist_audio_features upstream ctx) jsons w3)
        as Hlen2;
      pose proof (@for_each_handled _ _ (playlist_audio_features upstream ctx) jsons w3)
        as Hhandled;
      destruct (for_each (playlist_audio_features upstream ctx) jsons w3)
        as [[audioFeatures | e] w4]
  end; [| discriminate].
  specialize (Hlen2 _ _ eq_refl). specialize (Hhandled _ _ eq_refl).
  cbn [snd net] in Hnet.
  assert (Hps : exists ps : list RawPlaylist, jsons = map inr ps).
  { clear - Hhandled. induction Hhandled as [| json jsons Hjson _ [ps ->]].
    - exists []. reflexivity.
    - destruct (@playlist_audio_features_handled ctx json Hjson) as [p ->].
      exists (p :: ps). reflexivity. }
  destruct Hps as [ps ->]. rewrite length_map in Hlen, Hlen2.
  destruct (mapi average_of_playlist audioFeatures) as [averages | e] eqn:Havg;
    [| discriminate].
  destruct (mapi_from_ok _ _ _ Havg) as [Hl1 _].
  unfold mapi. rewrite playlists_of_bodies. cbn [fst snd].
  intros Hr. inversion Hr; subst r; clear Hr. cbn [items nextCursor].
  exists page, ps, rest. split; [reflexivity |]. split; [exact Hlen |].
  split; [apply new_exchanges_app; rewrite Hnet, app_assoc; reflexivity |].
  assert (Hfst : map fst (combine ps averages) = ps)
    by (apply map_fst_combine; lia).
  rewrite !map_map. cbn [p_id p_name p_description p_image].
  split; [rewrite <- (map_map fst pl_id), Hfst; reflexivity |].
  split; [rewrite <- (map_map fst pl_name), Hfst; reflexivity |].
  split; [rewrite <- (map_map fst pl_description), Hfst; reflexivity |].
  split; [transitivity (map (fun p => nth_error (pl_images p) 1)
                            (map fst (combine ps averages)));
          [rewrite map_map; reflexivity | rewrite Hfst; reflexivity] |].
  split; [| exact Hrest].
  apply Forall_forall. intros item Hitem. apply in_map_iff in Hitem.
  destruct Hitem as (pa & <- & _). reflexivity.
Qed.

(** The items of a page are the playlists upstream returned for the rows
    of the page, one for one and in order: each item has the id, name and
    description of its playlist, the second image of the playlist as
    image, and the web address of its id as [uri].  Every playlist of a
    page that is returned has a second image. *)
Theorem getPlaylists_items (ctx : Ctx) (input : PlaylistsInput) (w : World)
        (r : PlaylistsOutput) :
  let run := getPlaylists upstream store_count store_findMany ctx input w in
  fst run = Ok r ->
  exists (page : list PlaylistRow) (ps : list RawPlaylist) (rest : list Exchange),
    split_page (coalesce (limit input) 50%Z)
               (store_findMany (db w) (page_query ctx input))
    = Ok (page, nextCursor r)
    /\ length ps = length page
    /\ new_exchanges w (snd run)
       = map (exchange_of GetPlaylist)
             (combine (map (fun row => playlist_request ctx (spotifyId row)) page)
                      (map inr ps))
           ++ rest
    /\ map p_id (items r) = map pl_id ps
    /\ map p_name (items r) = map pl_name ps
    /\ map p_description (items r) = map pl_description ps
    /\ map p_image (items r) = map (fun p => nth_error (pl_images p) 1) ps
    /\ Forall (fun item => exists img, p_image item = Some img) (items r)
    /\ Forall (fun p => exists img, nth_error (pl_images p) 1 = Some img) ps
    /\ Forall (fun item =>
                 p_uri item = lit "https://open.spotify.com/playlist/" ++ p_id item)
              (items r).
Proof.
  cbv zeta. rewrite getPlaylists_world. intros Hr.
  apply getPlaylists_returned in Hr. destruct Hr as [Hr Hout].
  destruct (@getPlaylists_resolve_items ctx input w r Hr)
    as (page & ps & rest & Hpage & Hlen & Hnew & Hid & Hname & Hdesc & Himg & Huri & _).
  exists page, ps, rest.
  assert (Hcovers : Forall (fun item => exists img, p_image item = Some img) (items r)).
  { apply Forall_forall. intros item Hitem.
    unfold getPlaylists_output in Hout. rewrite forallb_forall in Hout.
    specialize (Hout item Hitem). apply andb_prop in Hout. destruct Hout as [Hout _].
    destruct (p_image item) as [img |]; [eexists; reflexivity | discriminate]. }
  repeat (split; [assumption |]).
  split; [| exact Huri].
  assert (Hall : forall o : option Image,
             In o (map p_image (items r)) -> exists img, o = Some img).
  { intros o Ho. apply in_map_iff in Ho. destruct Ho as (item & <- & Hitem).
    rewrite Forall_forall in Hcovers. exact (Hcovers item Hitem). }
  rewrite Himg in Hall. apply Forall_forall. intros p Hp.
  apply Hall. apply in_map_iff. exists p. split; [reflexivity | exact Hp].
Qed.

(** The decision of the output schema on a page whose trace shows a
    playlist with fewer than two images. *)
Lemma getPlaylists_resolve_missing_cover (ctx : Ctx) (input : PlaylistsInput)
      (w : World) (r : PlaylistsOutput) :
  let run := getPlaylists_resolve upstream store_count store_findMany ctx input w in
  Exists (fun x => exists p, playlist_body x = Some p /\ (length (pl_images p) < 2)%nat)
         (new_exchanges w (snd run)) ->
  fst run = Ok r ->
  getPlaylists_output r = false.
Proof.
  cbv zeta. intros Hbare Hr.
  destruct (@getPlaylists_resolve_items ctx input w r Hr)
    as (page & ps & rest & _ & Hlen & Hnew & _ & _ & _ & Himg & _ & Hrest).
  rewrite Hnew in Hbare. apply Exists_app in Hbare.
  assert (Hp : exists p, In p ps /\ (length (pl_images p) < 2)%nat).
  { destruct Hbare as [Hbare | Hbare];
      rewrite Exists_exists in Hbare; destruct Hbare as (x & Hx & p & Hbody & Hfew).
    - apply in_map_iff in Hx. destruct Hx as ([req json] & <- & Hin).
      apply in_combine_r, in_map_iff in Hin. destruct Hin as (p' & <- & Hin).
      cbn in Hbody. inversion Hbody; subst. exists p. split; assumption.
    - exfalso. rewrite Forall_forall in Hrest. specialize (Hrest x Hx).
      destruct x as [ep req json]. cbn in Hrest. subst ep. discriminate. }
  destruct Hp as (p & Hin & Hfew).
  assert (Hnone : In None (map p_image (items r))).
  { rewrite Himg. apply in_map_iff. exists p. split; [| exact Hin].
    apply nth_error_None. lia. }
  apply in_map_iff in Hnone. destruct Hnone as (item & Hitem & Hin').
  unfold getPlaylists_output.
  destruct (forallb _ (items r)) eqn:Hall; [| reflexivity].
  rewrite forallb_forall in Hall. specialize (Hall item Hin').
  rewrite Hitem in Hall. discriminate.
Qed.

(** A playlist with fewer than two images makes the whole listing fail:
    the call never returns a page on which upstream returned such a
    playlist, and when the resolver has assembled the page the call fails
    with "Output validation failed". *)
Theorem getPlaylists_missing_cover (ctx : Ctx) (input : PlaylistsInput) (w : World) :
  let run := getPlaylists upstream store_count store_findMany ctx input w in
  Exists (fun x => exists p, playlist_body x = Some p /\ (length (pl_images p) < 2)%nat)
         (new_exchanges w (snd run)) ->
  (forall r, fst run <> Ok r)
  /\ (forall r,
         fst (getPlaylists_resolve upstream store_count store_findMany ctx input w)
         = Ok r ->
         fst run = Throw (TRPCError INTERNAL_SERVER_ERROR
                                    (lit "Output validation failed")
                                    (Some ZodError))).
Proof.
  cbv zeta. rewrite getPlaylists_world. intros Hbare. split.
  - intros r Hr. apply getPlaylists_returned in Hr. destruct Hr as [Hr Hout].
    rewrite (@getPlaylists_resolve_missing_cover ctx input w r Hbare Hr) in Hout.
    discriminate.
  - intros r Hr. rewrite getPlaylists_procedure. cbn [fst].
    rewrite Hr, (@getPlaylists_resolve_missing_cover ctx input w r Hbare Hr).
    reflexivity.
Qed.

Lemma split_page_returns (limit : Z) (found : list PlaylistRow) :
  (0 <= limit)%Z -> exists page, split_page limit found = Ok page.
Proof.
  intros Hlimit. unfold split_page.
  destruct (Z.gtb_spec (Z.of_nat (length found)) limit) as [Hgt | Hle];
    [| eexists; reflexivity].
  destruct (@exists_last _ found) as (page & extra & ->).
  - intros ->. simpl in Hgt. lia.
  - rewrite pop_snoc. eexists. reflexivity.
Qed.

(** A refused audio-features lookup is never what makes the listing fail:
    when upstream returns the playlists but refuses every audio-features
    lookup, the resolver of a call with a valid input still assembles its
    page, so the call either returns that page or fails on the output
    schema, and it returns the page when the page passes the schema. *)
Theorem getPlaylists_without_audio_features (ctx : Ctx) (input : PlaylistsInput)
        (w : World) :
  let run := getPlaylists upstream store_count store_findMany ctx input w in
  getPlaylists_input input = true ->
  answers_playlists upstream ->
  (forall h req, error (upstream AudioFeaturesLookup h req) <> None) ->
  exists r,
    fst (getPlaylists_resolve upstream store_count store_findMany ctx input w) = Ok r
    /\ (getPlaylists_output r = true -> fst run = Ok r)
    /\ (fst run = Ok r
        \/ fst run = Throw (TRPCError INTERNAL_SERVER_ERROR
                                      (lit "Output validation failed")
                                      (Some ZodError)))
    /\ Forall (fun x => ex_endpoint x = AudioFeaturesLookup -> ex_error x <> None)
              (new_exchanges w (snd run)).
Proof.
  cbv zeta. intros Hinput Hplaylists Hrefused. rewrite getPlaylists_world.
  assert (HL : (0 <= coalesce (limit input) 50)%Z).
  { unfold getPlaylists_input in Hinput. destruct (limit input); simpl; lia. }
  destruct (@getPlaylists_returns upstream store_count store_findMany ctx input w)
    as [r Hr].
  - exact Hplaylists.
  - intros h req audio_features Hup. exfalso.
    apply (Hrefused h req). rewrite Hup. reflexivity.
  - apply split_page_returns. exact HL.
  - exists r. split; [exact Hr |].
    split; [apply getPlaylists_passes; exact Hr |].
    split.
    { rewrite getPlaylists_procedure. cbn [fst]. rewrite Hr.
      destruct (getPlaylists_output r); [left | right]; reflexivity. }
    assert (Hall : forall w0 w1 : World,
               extends (fun x => ex_endpoint x = AudioFeaturesLookup -> ex_error x <> None)
                       w0 w1 ->
               net w0 = net w ->
               Forall (fun x => ex_endpoint x = AudioFeaturesLookup -> ex_error x <> None)
                      (new_exchanges w w1)).
    { intros w0 w1 (_ & _ & new & Hnet & Hnew) H0.
      erewrite new_exchanges_app; [exact Hnew | rewrite Hnet, H0; reflexivity]. }
    assert (Hfetch : forall ep req w0,
               extends (fun x => ex_endpoint x = AudioFeaturesLookup -> ex_error x <> None)
                       w0 (snd (fetch upstream ep req w0))).
    { intros ep req w0. unfold fetch; simpl. repeat split.
      eexists. split; [reflexivity |]. repeat constructor.
      unfold ex_error; simpl. intros ->. apply Hrefused. }
    clear Hr. unfold getPlaylists_resolve.
    cbv [bind prisma_count prisma_findMany lift ret]. cbn [db net db_log].
    match goal with
    | |- context [split_page ?l ?found] =>
        destruct (split_page l found) as [[page nc] | e]
    end; [| eapply Hall; [apply extends_refl | reflexivity]].
    match goal with
    | |- context [for_each ?f page ?w2] =>
        pose proof (@for_each_extends _ _ _ f page
                      (fun x w0 => Hfetch GetPlaylist _ w0) w2) as H1;
        destruct (for_each f page w2) as [[spotifyPlaylists | e] w3]
    end; [| eapply Hall; [exact H1 | reflexivity]].
    assert (Hstep : forall x w0,
               extends (fun x => ex_endpoint x = AudioFeaturesLookup -> ex_error x <> None)
                       w0 (snd (playlist_audio_features upstream ctx x w0))).
    { intros [e | p] w0; simpl; [apply extends_refl |].
      unfold sequentialFetch. apply for_each_extends. intros req w1. apply Hfetch. }
    pose proof (@for_each_extends _ _ _ (playlist_audio_features upstream ctx)
                  spotifyPlaylists Hstep w3) as H2.
    destruct (for_each _ spotifyPlaylists w3) as [[audioFeatures | e] w4];
      [| eapply Hall; [exact (extends_trans H1 H2) | reflexivity]].
    destruct (mapi _ audioFeatures) as [averages | e];
      [destruct (mapi _ (combine _ _)) as [playlists | e] |];
      (eapply Hall; [exact (extends_trans H1 H2) | reflexivity]).
Qed.

End PlaylistsOutcomes.

Lemma getPlaylists_total_witness :
  exists r r',
    fst (getPlaylists Demo.healthy Demo.count Demo.findMany Demo.ctx
                      (Demo.first_page (Val 2%Z)) (Demo.table 3)) = Ok r
    /\ fst (getPlaylists Demo.healthy Demo.count Demo.findMany Demo.ctx
                         (Demo.first_page Undefined) (Demo.table 3)) = Ok r'
    /\ total r = Demo.count (db (Demo.table 3)) None
    /\ total r' = total r.
Proof.
  eexists. eexists.
  assert (Hr : fst (getPlaylists Demo.healthy Demo.count Demo.findMany Demo.ctx
                                 (Demo.first_page (Val 2%Z)) (Demo.table 3)) = Ok _)
    by (vm_compute; reflexivity).
  assert (Hr' : fst (getPlaylists Demo.healthy Demo.count Demo.findMany Demo.ctx
                                  (Demo.first_page Undefined) (Demo.table 3)) = Ok _)
    by (vm_compute; reflexivity).
  split; [exact Hr |]. split; [exact Hr' |].
  exact (@getPlaylists_total Demo.healthy Demo.count Demo.findMany Demo.ctx
                             (Demo.first_page (Val 2%Z)) (Demo.first_page Undefined)
                             (Demo.table 3) _ _ eq_refl Hr Hr').
Defined.

Lemma getPlaylists_cursor_is_last_row_witness :
  let input := Demo.first_page (Val 2%Z) in
  let found := Demo.findMany (db (Demo.table 3)) (page_query Demo.ctx input) in
  exists r,
    fst (getPlaylists Demo.healthy Demo.count Demo.findMany Demo.ctx input
                      (Demo.table 3)) = Ok r
    /\ ((nextCursor r = None
         /\ length (items r) = length found
         /\ (Z.of_nat (length found) <= 2)%Z)
        \/ (exists page extra,
               found = page ++ [extra]
               /\ nextCursor r = Some (row_id extra)
               /\ length (items r) = length page
               /\ (2 < Z.of_nat (length found))%Z)).
Proof.
  cbv zeta. eexists.
  assert (Hr : fst (getPlaylists Demo.healthy Demo.count Demo.findMany Demo.ctx
                                 (Demo.first_page (Val 2%Z)) (Demo.table 3)) = Ok _)
    by (vm_compute; reflexivity).
  split; [exact Hr |].
  exact (@getPlaylists_cursor_is_last_row
           Demo.healthy Demo.count Demo.findMany Demo.ctx
           (Demo.first_page (Val 2%Z)) (Demo.table 3) _ Hr).
Defined.

Lemma getPlaylists_refused_playlist_witness :
  fst (getPlaylists Demo.playlist_gone Demo.count Demo.findMany Demo.ctx
                    (Demo.first_page (Val 2%Z)) (Demo.table 3))
  = Throw TypeError.
Proof.
  apply (getPlaylists_refused_playlist Demo.playlist_gone Demo.count Demo.findMany
                                       Demo.ctx (Demo.first_page (Val 2%Z))
                                       (Demo.table 3)).
  vm_compute. apply Exists_cons_hd. split; [reflexivity | discriminate].
Defined.

Lemma getPlaylists_items_witness :
  let input := Demo.first_page (Val 2%Z) in
  let run := getPlaylists Demo.healthy Demo.count Demo.findMany Demo.ctx input
                          (Demo.table 3) in
  exists (r : PlaylistsOutput) (page : list PlaylistRow) (ps : list RawPlaylist)
         (rest : list Exchange),
    fst run = Ok r
    /\ split_page (coalesce (limit input) 50%Z)
                  (Demo.findMany (db (Demo.table 3)) (page_query Demo.ctx input))
       = Ok (page, nextCursor r)
    /\ length ps = length page
    /\ new_exchanges (Demo.table 3) (snd run)
       = map (exchange_of GetPlaylist)
             (combine (map (fun row => playlist_request Demo.ctx (spotifyId row)) page)
                      (map inr ps))
           ++ rest
    /\ map p_id (items r) = map pl_id ps
    /\ map p_name (items r) = map pl_name ps
    /\ map p_description (items r) = map pl_description ps
    /\ map p_image (items r) = map (fun p => nth_error (pl_images p) 1) ps
    /\ Forall (fun item => exists img, p_image item = Some img) (items r)
    /\ Forall (fun p => exists img, nth_error (pl_images p) 1 = Some img) ps
    /\ Forall (fun item =>
                 p_uri item = lit "https://open.spotify.com/playlist/" ++ p_id item)
              (items r).
Proof.
  cbv zeta. eexists.
  assert (Hr : fst (getPlaylists Demo.healthy Demo.count Demo.findMany Demo.ctx
                                 (Demo.first_page (Val 2%Z)) (Demo.table 3)) = Ok _)
    by (vm_compute; reflexivity).
  destruct (@getPlaylists_items Demo.healthy Demo.count Demo.findMany Demo.ctx
                                (Demo.first_page (Val 2%Z)) (Demo.table 3) _ Hr)
    as (page & ps & rest & H).
  exists page, ps, rest. split; [exact Hr | exact H].
Defined.

(** The page of that call: two items, each with the 300-pixel image, the
    second of its playlist's three. *)
Example getPlaylists_items_run :
  match fst (getPlaylists Demo.healthy Demo.count Demo.findMany Demo.ctx
                          (Demo.first_page (Val 2%Z)) (Demo.table 3)) with
  | Ok r => map p_image (items r) = [Some (Demo.cover 300); Some (Demo.cover 300)]
  | Throw _ => False
  end.
Proof. vm_compute. reflexivity. Qed.

Lemma getPlaylists_missing_cover_witness :
  let run := getPlaylists Demo.one_cover Demo.count Demo.findMany Demo.ctx
                          (Demo.first_page (Val 2%Z)) (Demo.table 3) in
  (forall r, fst run <> Ok r)
  /\ (forall r,
         fst (getPlaylists_resolve Demo.one_cover Demo.count Demo.findMany Demo.ctx
                                   (Demo.first_page (Val 2%Z)) (Demo.table 3))
         = Ok r ->
         fst run = Throw (TRPCError INTERNAL_SERVER_ERROR
                                    (lit "Output validation failed")
                                    (Some ZodError))).
Proof.
  apply (getPlaylists_missing_cover Demo.one_cover Demo.count Demo.findMany Demo.ctx
                                    (Demo.first_page (Val 2%Z)) (Demo.table 3)).
  vm_compute. apply Exists_cons_hd. eexists. split; [reflexivity |]. simpl. lia.
Defined.

(** The outcome of that call. *)
Example getPlaylists_missing_cover_run :
  fst (getPlaylists Demo.one_cover Demo.count Demo.findMany Demo.ctx
                    (Demo.first_page (Val 2%Z)) (Demo.table 3))
  = Throw (TRPCError INTERNAL_SERVER_ERROR (lit "Output validation failed")
                     (Some ZodError)).
Proof. vm_compute. reflexivity. Qed.

Lemma getPlaylists_without_audio_features_witness :
  let run := getPlaylists Demo.no_audio_features Demo.count Demo.findMany Demo.ctx
                          (Demo.first_page (Val 2%Z)) (Demo.table 3) in
  exists r,
    fst (getPlaylists_resolve Demo.no_audio_features Demo.count Demo.findMany Demo.ctx
                              (Demo.first_page (Val 2%Z)) (Demo.table 3)) = Ok r
    /\ (getPlaylists_output r = true -> fst run = Ok r)
    /\ (fst run = Ok r
        \/ fst run = Throw (TRPCError INTERNAL_SERVER_ERROR
                                      (lit "Output validation failed")
                                      (Some ZodError)))
    /\ Forall (fun x => ex_endpoint x = AudioFeaturesLookup -> ex_error x <> None)
              (new_exchanges (Demo.table 3) (snd run)).
Proof.
  apply (@getPlaylists_without_audio_features
           Demo.no_audio_features Demo.count Demo.findMany Demo.ctx
           (Demo.first_page (Val 2%Z)) (Demo.table 3)).
  - reflexivity.
  - intros h req. eexists. reflexivity.
  - intros h req. discriminate.
Defined.

(** On that upstream, whose playlists have three images, the call returns
    its two items. *)
Example getPlaylists_without_audio_features_run :
  match fst (getPlaylists Demo.no_audio_features Demo.count Demo.findMany Demo.ctx
                          (Demo.first_page (Val 2%Z)) (Demo.table 3)) with
  | Ok r => length (items r) = 2%nat
  | Throw _ => False
  end.
Proof. vm_compute. reflexivity. Qed.

(* ------------------------------------------------------------------ *)
(** ** The mixtapes page *)

Lemma fold_items_concat (pages : list PlaylistsOutput) :
  forall acc,
    fold_left (fun acc curr => acc ++ items curr) pages acc
    = acc ++ concat (map items pages).
Proof.
  induction pages as [| page pages IH]; intros acc; simpl.
  - rewrite app_nil_r. reflexivity.
  - rewrite IH, app_assoc. reflexivity.
Qed.

(** The list the page shows is the items of all the pages fetched so far,
    in the order of the pages and with nothing dropped or repeated: its
    length is the sum of the lengths of the pages, and a further page only
    adds its items at the end.  Before the first page arrives there is no
    list. *)
Theorem shown_playlists_all_pages (pages : list PlaylistsOutput)
        (next : PlaylistsOutput) :
  shown_playlists None = None
  /\ shown_playlists (Some pages) = Some (concat (map items pages))
  /\ option_map (@length Playlist) (shown_playlists (Some pages))
     = Some (list_sum (map (fun page => length (items page)) pages))
  /\ shown_playlists (Some (pages ++ [next]))
     = option_map (fun shown => shown ++ items next) (shown_playlists (Some pages)).
Proof.
  assert (Hshown : forall l, shown_playlists (Some l) = Some (concat (map items l))).
  { intros l. unfold shown_playlists. simpl. rewrite fold_items_concat. reflexivity. }
  split; [reflexivity |]. split; [apply Hshown |].
  split.
  - rewrite Hshown. simpl. f_equal.
    induction pages as [| page pages IH]; simpl; [reflexivity |].
    rewrite length_app, IH. reflexivity.
  - rewrite !Hshown. simpl. rewrite map_app, concat_app. simpl.
    rewrite app_nil_r. reflexivity.
Qed.
